(** * roast_project: the serverless request/response bridge and the session
    middleware, embedded in Rocq.

    The development follows two source files:
    - [packages/server/src/middlewares/session.ts] (module [SessionMw]):
      [Cookie], [getSession], [MemoryStore], [Session], [isSecure], [session];
    - the bridge ([expressWXServer], [getExpressParams], [initExpressResponse]
      and its [send]) (module [Bridge]).

    JavaScript strings are modelled as byte strings ([string]); case mapping
    and trimming are the ASCII ones. Numbers are the integer-valued ones; a
    [Date] is an instant in milliseconds or the Invalid Date, and every
    call of [Date.now()] has a clock reading of its own. *)

From Stdlib Require Import ZArith Bool Ascii String List Lia.
From stdpp Require Import base option gmap strings list pretty.

Import ListNotations.
Set Warnings "-register-all".
Local Open Scope string_scope.
Local Open Scope Z_scope.

(** ** JavaScript values and string primitives *)

Module JS.

(** The values a JSON text denotes, plus [undefined].  An object keeps its
    properties in enumeration order. *)
Inductive value : Type :=
| VUndefined
| VNull
| VBool (b : bool)
| VNum (n : Z)
| VStr (s : string)
| VArr (items : list value)
| VObj (props : list (string * value)).

(** [typeof v] *)
Inductive jstype := TUndefined | TObject | TBoolean | TNumber | TString | TFunction.

Definition typeof (v : value) : jstype :=
  match v with
  | VUndefined => TUndefined
  | VNull | VArr _ | VObj _ => TObject
  | VBool _ => TBoolean
  | VNum _ => TNumber
  | VStr _ => TString
  end.

Definition jstype_eqb (a b : jstype) : bool :=
  match a, b with
  | TUndefined, TUndefined | TObject, TObject | TBoolean, TBoolean
  | TNumber, TNumber | TString, TString | TFunction, TFunction => true
  | _, _ => false
  end.

(** [!!v] *)
Definition truthy (v : value) : bool :=
  match v with
  | VUndefined | VNull => false
  | VBool b => b
  | VNum n => negb (n =? 0)
  | VStr s => negb (String.eqb s "")
  | VArr _ | VObj _ => true
  end.

(** [o[k]] on an object in enumeration order; a missing key reads
    [undefined]. *)
Fixpoint assoc (k : string) (props : list (string * value)) : value :=
  match props with
  | [] => VUndefined
  | (k', v) :: rest => if String.eqb k k' then v else assoc k rest
  end.

(** [v.k]: property read on any value that is not [null]/[undefined]
    (those throw a TypeError, [None]). Primitives and arrays carry none of
    the names read by this program. *)
Definition get_prop (v : value) (k : string) : option value :=
  match v with
  | VUndefined | VNull => None
  | VObj props => Some (assoc k props)
  | _ => Some VUndefined
  end.

(** [v.k] once [v] is known to be neither [null] nor [undefined]. *)
Definition prop_of (v : value) (k : string) : value :=
  match get_prop v k with
  | Some x => x
  | None => VUndefined
  end.

(** *** Strings *)

Definition is_upper (c : ascii) : bool :=
  let n := N_of_ascii c in ((65 <=? n) && (n <=? 90))%N.

Definition is_lower (c : ascii) : bool :=
  let n := N_of_ascii c in ((97 <=? n) && (n <=? 122))%N.

Definition ascii_lower (c : ascii) : ascii :=
  if is_upper c then ascii_of_N (N_of_ascii c + 32) else c.

Definition ascii_upper (c : ascii) : ascii :=
  if is_lower c then ascii_of_N (N_of_ascii c - 32) else c.

Fixpoint map_string (f : ascii -> ascii) (s : string) : string :=
  match s with
  | EmptyString => EmptyString
  | String c r => String (f c) (map_string f r)
  end.

Definition toLowerCase : string -> string := map_string ascii_lower.
Definition toUpperCase : string -> string := map_string ascii_upper.

(** White space removed by [trim]: TAB, LF, VT, FF, CR and SPACE. *)
Definition is_space (c : ascii) : bool :=
  let n := N_of_ascii c in (((9 <=? n) && (n <=? 13)) || (n =? 32))%N.

Fixpoint trimStart (s : string) : string :=
  match s with
  | EmptyString => EmptyString
  | String c r => if is_space c then trimStart r else s
  end.

Fixpoint trimEnd (s : string) : string :=
  match s with
  | EmptyString => EmptyString
  | String c r =>
      match trimEnd r with
      | EmptyString => if is_space c then EmptyString else String c EmptyString
      | r' => String c r'
      end
  end.

Definition trim (s : string) : string := trimEnd (trimStart s).

(** [s.indexOf(c)]: position of the first occurrence, [-1] when there is
    none. *)
Fixpoint indexOf (c : ascii) (s : string) : Z :=
  match s with
  | EmptyString => -1
  | String d r =>
      if Ascii.eqb c d then 0
      else let i := indexOf c r in if i =? -1 then -1 else i + 1
  end.

(** [s.substr(0, n)] *)
Definition substr0 (n : Z) (s : string) : string :=
  String.substring 0 (Z.to_nat n) s.

End JS.

(** ** The session middleware ([session.ts]) *)

Module SessionMw.
Import JS.

(** *** [Cookie] *)

Inductive Priority := Low | Medium | High.
Inductive SameSite := SameSiteBool (b : bool) | Lax | Strict | NoneSite.

(** A [Date]: an instant, in milliseconds since the epoch, or the Invalid
    Date. *)
Inductive Date := Instant (t : Z) | InvalidDate.

(** The largest time value of a [Date]. *)
Definition max_time : Z := 8640000000000000.

(** [new Date(v)]: the instant [v] within the range of time values, the
    Invalid Date beyond it. *)
Definition new_Date (v : Z) : Date :=
  if (- max_time <=? v) && (v <=? max_time) then Instant v else InvalidDate.

(** The result of an arithmetic expression: a number or [NaN]. *)
Inductive number := Finite (n : Z) | NaN.

(** [SerializeOptions] of the cookie package; [None] is an absent key. *)
Record CookieOptions := mkCookieOptions {
  o_path : option string;
  o_httpOnly : option bool;
  o_maxAge : option Z;
  o_expires : option Date;
  o_secure : option bool;
  o_partitioned : option bool;
  o_priority : option Priority;
  o_domain : option string;
  o_sameSite : option SameSite }.

Definition no_options : CookieOptions :=
  mkCookieOptions None None None None None None None None None.

(** The instance fields of [class Cookie]. *)
Record Cookie := mkCookie {
  path : string;
  httpOnly : bool;
  _maxAge : option Z;
  _expires : option Date;
  secure : option bool;
  partitioned : option bool;
  priority : option Priority;
  domain : option string;
  sameSite : option SameSite }.

Definition with_maxAge (v : option Z) (c : Cookie) : Cookie :=
  mkCookie (path c) (httpOnly c) v (_expires c) (secure c) (partitioned c)
           (priority c) (domain c) (sameSite c).

Definition with_expires (v : option Date) (c : Cookie) : Cookie :=
  mkCookie (path c) (httpOnly c) (_maxAge c) v (secure c) (partitioned c)
           (priority c) (domain c) (sameSite c).

Definition with_secure (v : option bool) (c : Cookie) : Cookie :=
  mkCookie (path c) (httpOnly c) (_maxAge c) (_expires c) v (partitioned c)
           (priority c) (domain c) (sameSite c).

(** A number is truthy when it is not [0]; [undefined] is falsy. *)
Definition truthy_num (ms : option Z) : bool :=
  match ms with
  | Some m => negb (m =? 0)
  | None => false
  end.

(** The same for a value that may be [NaN], which is falsy. *)
Definition truthy_number (x : option number) : bool :=
  match x with
  | Some (Finite n) => negb (n =? 0)
  | Some NaN | None => false
  end.

Definition getOriMaxAge (c : Cookie) : option Z := _maxAge c.

Definition setOriMaxAge (val : Z) (c : Cookie) : Cookie := with_maxAge (Some val) c.

(** [get expires] *)
Definition expires (c : Cookie) : option Date := _expires c.

(** [get maxAge], when its [Date.now()] reads [now]: the time left until
    the expiry, [NaN] for the Invalid Date, [undefined] without expiry. *)
Definition maxAge (now : Z) (c : Cookie) : option number :=
  match expires c with
  | Some (Instant e) => Some (Finite (e - now))
  | Some InvalidDate => Some NaN
  | None => None
  end.

(** The clock readings of one call of [set expires]: the getter [maxAge]
    is read for the test [if (this.maxAge)] and read again for the value
    [setOriMaxAge(this.maxAge)]. *)
Record ExpiresClock := mkExpiresClock {
  at_test : Z;
  at_store : Z }.

(** The clock readings of one call of [set maxAge]: [Date.now() + ms], then
    those of [set expires]. *)
Record MaxAgeClock := mkMaxAgeClock {
  at_sum : Z;
  then_expires : ExpiresClock }.

(** The clock readings of one call of the constructor: those of
    [this.maxAge = _maxAge] and those of [this.expires = _expires]. *)
Record CookieClock := mkCookieClock {
  for_maxAge : MaxAgeClock;
  for_expires : ExpiresClock }.

(** Clocks that show [t] at every reading. *)
Definition steady_expires (t : Z) : ExpiresClock := mkExpiresClock t t.
Definition steady_maxAge (t : Z) : MaxAgeClock := mkMaxAgeClock t (steady_expires t).
Definition steady_cookie (t : Z) : CookieClock :=
  mkCookieClock (steady_maxAge t) (steady_expires t).

(** [set expires(date)]. The value stored is the second reading of the
    getter, a number since the first one was truthy. *)
Definition set_expires (date : Date) (clock : ExpiresClock) (c : Cookie) : Cookie :=
  let c1 := with_expires (Some date) c in
  if truthy_number (maxAge (at_test clock) c1)
  then match maxAge (at_store clock) c1 with
       | Some (Finite m) => setOriMaxAge m c1
       | Some NaN | None => c1
       end
  else c1.

(** [set maxAge(ms)] *)
Definition set_maxAge (ms : option Z) (clock : MaxAgeClock) (c : Cookie) : Cookie :=
  match ms with
  | Some m =>
      if truthy_num ms
      then set_expires (new_Date (at_sum clock + m)) (then_expires clock) c
      else c
  | None => c
  end.

(** [new Cookie(options)] from serialize options. *)
Definition new_Cookie (options : option CookieOptions) (clock : CookieClock)
  : Cookie :=
  let o := default no_options options in
  let c0 :=
    mkCookie (default "/" (o_path o)) (default true (o_httpOnly o)) None None
             (o_secure o) (o_partitioned o) (o_priority o) (o_domain o)
             (o_sameSite o) in
  let c1 :=
    match o_maxAge o with
    | Some m =>
        if truthy_num (Some m)
        then setOriMaxAge m (set_maxAge (Some m) (for_maxAge clock) c0)
        else c0
    | None => c0
    end in
  match o_expires o with
  | Some e => set_expires e (for_expires clock) c1
  | None => c1
  end.

(** [new Cookie(cookie)] on a [Cookie] instance, as [createSession] calls
    it: the own properties of the instance are [path], [httpOnly],
    [_maxAge], [_expires], ...; none is named [expires] or [maxAge], so each
    is assigned as it is. *)
Definition new_Cookie_from (c : option Cookie) : Cookie :=
  match c with
  | Some c => c
  | None => mkCookie "/" true None None None None None None None
  end.

(** [get params] *)
Definition params (c : Cookie) : CookieOptions :=
  mkCookieOptions (Some (path c)) (Some (httpOnly c)) (_maxAge c) (_expires c)
                  (secure c) (partitioned c) (priority c) (domain c)
                  (sameSite c).

Definition toJSON (c : Cookie) : CookieOptions := params c.

(** *** [Session] and [MemoryStore] *)

(** A session: its id and its optional cookie.  The back reference [req] is
    left out; the methods that go through [req.sessionStore] take the store
    as an argument. *)
Record Session := mkSession {
  id : string;
  cookie : option Cookie }.

Record MemoryStore := mkStore {
  sessions : gmap string Session }.

Definition new_MemoryStore : MemoryStore := mkStore ∅.

(** [getSession.call(store, id)] when the clock shows [now]: the session
    handed out and the store afterwards. *)
Definition getSession (st : MemoryStore) (sid : string) (now : Z)
  : option Session * MemoryStore :=
  match sessions st !! sid with
  | None => (None, st)
  | Some _session =>
      match cookie _session with
      | Some ck =>
          match expires ck with
          | Some (Instant e) =>
              if e <=? now
              then (None, mkStore (delete sid (sessions st)))
              else (Some _session, st)
          | Some InvalidDate | None => (Some _session, st)
          end
      | None => (Some _session, st)
      end
  end.

(** [store.get(id, callback)]: [getSession] runs at the call; its result is
    the second argument the callback receives on a later turn. *)
Definition get (st : MemoryStore) (sid : string) (now : Z)
  : option Session * MemoryStore :=
  getSession st sid now.

(** The arguments [setImmediate(callback, null, found)] calls the callback
    with: [null], then what [getSession] found. *)
Definition callback_arguments (found : option Session) : list (option Session) :=
  [None; found].

Definition destroy (st : MemoryStore) (sid : string) : MemoryStore :=
  match sessions st !! sid with
  | Some _ => mkStore (delete sid (sessions st))
  | None => st
  end.

Definition commit (st : MemoryStore) (sid : string) (s : Session) : MemoryStore :=
  mkStore (<[sid := s]> (sessions st)).

(** [store.touch(id, session)] *)
Definition touch_store (st : MemoryStore) (sid : string) (s : Session) (now : Z)
  : MemoryStore :=
  match getSession st sid now with
  | (Some currSession, st') =>
      mkStore (<[sid := mkSession (id currSession) (cookie s)]> (sessions st'))
  | (None, st') => st'
  end.

Definition clear (st : MemoryStore) : MemoryStore := mkStore ∅.

(** The operations a caller can run on a store. *)
Inductive StoreOp :=
| OpGet (sid : string)
| OpCommit (sid : string) (s : Session)
| OpTouch (sid : string) (s : Session)
| OpDestroy (sid : string)
| OpClear.

Definition run_op (now : Z) (op : StoreOp) (st : MemoryStore) : MemoryStore :=
  match op with
  | OpGet sid => snd (get st sid now)
  | OpCommit sid s => commit st sid s
  | OpTouch sid s => touch_store st sid s now
  | OpDestroy sid => destroy st sid
  | OpClear => clear st
  end.

(** The id an operation addresses; [clear] addresses none. *)
Definition op_target (op : StoreOp) : option string :=
  match op with
  | OpGet sid | OpCommit sid _ | OpTouch sid _ | OpDestroy sid => Some sid
  | OpClear => None
  end.

(** [session.touch()] *)
Definition touch (clock : MaxAgeClock) (s : Session) : Session :=
  match cookie s with
  | Some ck => mkSession (id s) (Some (set_maxAge (getOriMaxAge ck) clock ck))
  | None => s
  end.

(** [store.createSession(req, session)]: the session as rebuilt. *)
Definition createSession (s : Session) (clock : ExpiresClock) : Session :=
  let exp := cookie s ≫= expires in
  let oriMaxAge := cookie s ≫= getOriMaxAge in
  let c0 := new_Cookie_from (cookie s) in
  let c1 := match exp with Some e => set_expires e clock c0 | None => c0 end in
  let c2 := match oriMaxAge with
            | Some m => if truthy_num (Some m) then setOriMaxAge m c1 else c1
            | None => c1
            end in
  mkSession (id s) (Some c2).

(** *** [isSecure] and the middleware *)

Record Request := mkRequest {
  sessionId : string;
  session_of : option Session;
  req_secure : option bool;
  header : option (gmap string string);
  originalUrl : string }.

(** [a || ""] on an optional string. *)
Definition or_empty (a : option string) : string :=
  match a with
  | Some s => s
  | None => ""
  end.

Definition isSecure (req : Request) (trustProxy : option bool) : bool :=
  match trustProxy with
  | Some false => false
  | None => bool_decide (req_secure req = Some true)
  | Some true =>
      let header := or_empty (header req ≫= (λ h, h !! "x-forworded-proto")) in
      let index := indexOf ","%char header in
      let proto :=
        if negb (index =? -1)
        then trim (toLowerCase (substr0 index header))
        else trim (toLowerCase header) in
      String.eqb proto "https"
  end.

Record SessionOptions := mkSessionOptions {
  opt_name : option string;
  opt_cookie : option CookieOptions;
  opt_trustProxy : option bool;
  opt_secret : option (string + list string);
  opt_store : option MemoryStore }.

(** What the closure returned by [session(options)] holds. *)
Record Middleware := mkMiddleware {
  name : string;
  cookieOptions : CookieOptions;
  store : MemoryStore;
  trustProxy : option bool;
  secret : list string;
  storeReady : bool }.

Definition session (options : option SessionOptions) : Middleware :=
  let o := default (mkSessionOptions None None None None None) options in
  mkMiddleware
    (match opt_name o with
     | Some n => if String.eqb n "" then "session-id" else n
     | None => "session-id"
     end)
    (default no_options (opt_cookie o))
    (default new_MemoryStore (opt_store o))
    (opt_trustProxy o)
    (match opt_secret o with
     | Some (inl one) => if String.eqb one "" then [] else [one]
     | Some (inr many) => many
     | None => []
     end)
    true.

(** [store.generate(req)], with the identifier [uuidv4()] returned. *)
Definition generate (mw : Middleware) (uuid : string) (clock : CookieClock)
  (req : Request)
  : Request :=
  let req1 := mkRequest uuid (session_of req) (req_secure req) (header req)
                        (originalUrl req) in
  let ck := new_Cookie (Some (cookieOptions mw)) clock in
  let ck' := with_secure (Some (isSecure req1 (trustProxy mw))) ck in
  mkRequest uuid (Some (mkSession uuid (Some ck'))) (req_secure req)
            (header req) (originalUrl req).

(** The two signals of the store the middleware listens to. *)
Inductive StoreEvent := Disconnect | Connect.

Definition on_event (ev : StoreEvent) (mw : Middleware) : Middleware :=
  mkMiddleware (name mw) (cookieOptions mw) (store mw) (trustProxy mw)
               (secret mw)
               (match ev with Disconnect => false | Connect => true end).

(** What one call of the middleware function does, in order. *)
Inductive Effect := CallNext | ConsoleDebug (msg : string).

(** [next?.()] *)
Definition call_next (next : bool) : list Effect :=
  if next then [CallNext] else [].

(** The function [(req, res, next) => ...] returned by [session]; [next]
    tells whether a continuation was supplied. *)
Definition handle (mw : Middleware) (req : Request) (next : bool) : list Effect :=
  match session_of req with
  | Some _ => call_next next
  | None =>
      if negb (storeReady mw)
      then ConsoleDebug "store is disconnected" :: call_next next
      else []
  end.

End SessionMw.

(** ** JSON: the built-in [JSON] object *)

Module JSON.
Import JS.

(** *** [JSON.stringify] *)

Definition dquote : ascii := ascii_of_N 34.

Definition hex_digit (n : N) : ascii :=
  if (n <? 10)%N then ascii_of_N (48 + n) else ascii_of_N (87 + n).

(** One character of a string literal, escaped as [JSON.stringify] does. *)
Definition escape_char (c : ascii) : string :=
  let n := N_of_ascii c in
  if (n =? 34)%N then String "\" (String dquote "")
  else if (n =? 92)%N then "\\"
  else if (n =? 8)%N then "\b"
  else if (n =? 12)%N then "\f"
  else if (n =? 10)%N then "\n"
  else if (n =? 13)%N then "\r"
  else if (n =? 9)%N then "\t"
  else if (n <? 32)%N
       then "\u00" ++ String (hex_digit (n / 16)) (String (hex_digit (n mod 16)) "")
       else String c "".

Fixpoint escape (s : string) : string :=
  match s with
  | EmptyString => EmptyString
  | String c r => escape_char c ++ escape r
  end.

Definition quote (s : string) : string :=
  String dquote (escape s ++ String dquote "").

Fixpoint join (sep : string) (parts : list string) : string :=
  match parts with
  | [] => ""
  | [p] => p
  | p :: rest => p ++ sep ++ join sep rest
  end.

(** The text of a value inside a document: [undefined] in an array prints
    as [null], a property whose value is [undefined] is left out. *)
Fixpoint serialize (v : value) : string :=
  match v with
  | VUndefined | VNull => "null"
  | VBool true => "true"
  | VBool false => "false"
  | VNum n => pretty n
  | VStr s => quote s
  | VArr items =>
      "[" ++ join "," ((fix each (l : list value) : list string :=
                          match l with
                          | [] => []
                          | x :: r => serialize x :: each r
                          end) items) ++ "]"
  | VObj props =>
      "{" ++ join "," ((fix each (l : list (string * value)) : list string :=
                          match l with
                          | [] => []
                          | (_, VUndefined) :: r => each r
                          | (k, x) :: r => (quote k ++ ":" ++ serialize x) :: each r
                          end) props) ++ "}"
  end.

(** [JSON.stringify(v)]: a string, or [undefined] for [undefined]. *)
Definition JSON_stringify (v : value) : value :=
  match v with
  | VUndefined => VUndefined
  | _ => VStr (serialize v)
  end.

(** *** [JSON.parse] *)

(** [JSON.parse(text)]: the value, or [None] when it throws a SyntaxError.
    The properties of the bridge hold for every parser; [reference_parser]
    below is the one scenarios are evaluated with. *)
Class Parser := { JSON_parse : string -> option value }.

(** [o[k] = v] on an object in enumeration order: an existing key keeps its
    place, a new one goes last. *)
Fixpoint set_prop (k : string) (v : value) (props : list (string * value))
  : list (string * value) :=
  match props with
  | [] => [(k, v)]
  | (k', v') :: rest =>
      if String.eqb k k' then (k, v) :: rest else (k', v') :: set_prop k v rest
  end.

Definition is_digit (c : ascii) : bool :=
  let n := N_of_ascii c in ((48 <=? n) && (n <=? 57))%N.

Definition is_json_space (c : ascii) : bool :=
  let n := N_of_ascii c in ((n =? 32) || (n =? 9) || (n =? 10) || (n =? 13))%N.

Fixpoint skip_ws (s : string) : string :=
  match s with
  | String c r => if is_json_space c then skip_ws r else s
  | EmptyString => s
  end.

(** Digits at the head of [s], accumulated in [acc]. *)
Fixpoint read_digits (acc : Z) (s : string) : Z * string :=
  match s with
  | String c r =>
      if is_digit c then read_digits (10 * acc + Z.of_N (N_of_ascii c - 48)) r
      else (acc, s)
  | EmptyString => (acc, s)
  end.

(** An integer literal: [0] or a non-zero digit followed by digits. A
    fraction or an exponent after it is outside the integer fragment. *)
Definition read_int (s : string) : option (Z * string) :=
  match s with
  | String c r =>
      if is_digit c then
        let '(n, rest) := if Ascii.eqb c "0" then (0, r) else read_digits 0 s in
        match rest with
        | String d _ =>
            if is_digit d || Ascii.eqb d "." || Ascii.eqb d "e" || Ascii.eqb d "E"
            then None else Some (n, rest)
        | EmptyString => Some (n, rest)
        end
      else None
  | EmptyString => None
  end.

(** The characters of a string literal up to its closing quote. *)
Fixpoint read_string (s : string) : option (string * string) :=
  match s with
  | EmptyString => None
  | String c r =>
      if Ascii.eqb c dquote then Some ("", r)
      else if (N_of_ascii c <? 32)%N then None
      else if Ascii.eqb c "\" then
        match r with
        | String e r' =>
            let plain (x : ascii) :=
              match read_string r' with
              | Some (t, rest) => Some (String x t, rest)
              | None => None
              end in
            if Ascii.eqb e dquote then plain dquote
            else if Ascii.eqb e "\" then plain "\"%char
            else if Ascii.eqb e "/" then plain "/"%char
            else if Ascii.eqb e "b" then plain (ascii_of_N 8)
            else if Ascii.eqb e "f" then plain (ascii_of_N 12)
            else if Ascii.eqb e "n" then plain (ascii_of_N 10)
            else if Ascii.eqb e "r" then plain (ascii_of_N 13)
            else if Ascii.eqb e "t" then plain (ascii_of_N 9)
            else None
        | EmptyString => None
        end
      else
        match read_string r with
        | Some (t, rest) => Some (String c t, rest)
        | None => None
        end
  end.

Definition expect (lit : string) (v : value) (s : string) : option (value * string) :=
  if String.prefix lit s
  then Some (v, String.substring (String.length lit)
                                 (String.length s - String.length lit) s)
  else None.

(** One value at the head of [s]; [fuel] bounds the nesting and the number
    of items read. *)
Fixpoint parse_value (fuel : nat) (s : string) : option (value * string) :=
  match fuel with
  | O => None
  | S fuel =>
      let items :=
        fix items (n : nat) (acc : list value) (s : string)
          : option (value * string) :=
          match n with
          | O => None
          | S n =>
              match parse_value fuel s with
              | Some (v, rest) =>
                  match skip_ws rest with
                  | String "," rest' => items n (acc ++ [v])%list rest'
                  | String "]" rest' => Some (VArr (acc ++ [v])%list, rest')
                  | _ => None
                  end
              | None => None
              end
          end in
      let members :=
        fix members (n : nat) (acc : list (string * value)) (s : string)
          : option (value * string) :=
          match n with
          | O => None
          | S n =>
              match skip_ws s with
              | String q r =>
                  match (if Ascii.eqb q dquote then read_string r else None) with
                  | Some (k, rest) =>
                      match skip_ws rest with
                      | String ":" rest' =>
                          match parse_value fuel rest' with
                          | Some (v, rest'') =>
                              match skip_ws rest'' with
                              | String "," r' => members n (set_prop k v acc) r'
                              | String "}" r' => Some (VObj (set_prop k v acc), r')
                              | _ => None
                              end
                          | None => None
                          end
                      | _ => None
                      end
                  | None => None
                  end
              | EmptyString => None
              end
          end in
      match skip_ws s with
      | String "n" _ => expect "null" VNull (skip_ws s)
      | String "t" _ => expect "true" (VBool true) (skip_ws s)
      | String "f" _ => expect "false" (VBool false) (skip_ws s)
      | String "-" r =>
          match read_int r with
          | Some (n, rest) => Some (VNum (- n), rest)
          | None => None
          end
      | String "[" r =>
          match skip_ws r with
          | String "]" rest => Some (VArr [], rest)
          | _ => items fuel [] r
          end
      | String "{" r =>
          match skip_ws r with
          | String "}" rest => Some (VObj [], rest)
          | _ => members fuel [] r
          end
      | String q r =>
          if Ascii.eqb q dquote then
            match read_string r with
            | Some (t, rest) => Some (VStr t, rest)
            | None => None
            end
          else
            match read_int (String q r) with
            | Some (n, rest) => Some (VNum n, rest)
            | None => None
            end
      | EmptyString => None
      end
  end.

(** A parser for JSON texts whose numbers are integer literals, whose
    strings use the single-character escapes and whose keys are not array
    indices: one value, white space around it, nothing after it. *)
Definition parse_text (s : string) : option value :=
  match parse_value (S (String.length s)) s with
  | Some (v, rest) =>
      match skip_ws rest with
      | EmptyString => Some v
      | _ => None
      end
  | None => None
  end.

Definition reference_parser : Parser := {| JSON_parse := parse_text |}.

End JSON.

(** ** The bridge ([expressWXServer] and its helpers) *)

Module Bridge.
Import JS JSON.

(** *** [getExpressParams] *)

Record ExpressParams := mkExpressParams {
  path : string;
  httpMethod : string;
  headers : value;
  queryStringParameters : value;
  body : value;
  isBase64Encoded : bool }.

(** The string a variable holds after
    [if (!x || typeof x !== 'string') x = dflt]. *)
Definition string_or (dflt : string) (x : value) : string :=
  if negb (truthy x) || negb (jstype_eqb (typeof x) TString) then dflt
  else match x with
       | VStr s => s
       | _ => dflt
       end.

(** The value a variable holds after
    [if (!x || typeof x !== 'object') x = {}]. *)
Definition object_or_empty (x : value) : value :=
  if negb (truthy x) || negb (jstype_eqb (typeof x) TObject) then VObj [] else x.

(** [getExpressParams(param)]; [None] when reading [param.path] throws. *)
Definition getExpressParams (param : value) : option ExpressParams :=
  match get_prop param "path" with
  | None => None
  | Some p =>
      let path := string_or "/" p in
      let httpMethod := toUpperCase (string_or "GET" (prop_of param "httpMethod")) in
      let headers := object_or_empty (prop_of param "headers") in
      let queryStringParameters :=
        object_or_empty (prop_of param "queryStringParameters") in
      let body0 := prop_of param "body" in
      let body :=
        if negb (truthy body0)
           || (negb (jstype_eqb (typeof body0) TString)
               && negb (jstype_eqb (typeof body0) TObject))
        then (if jstype_eqb (typeof body0) TObject
              then JSON_stringify body0
              else VStr "")
        else body0 in
      let isBase64Encoded := truthy (prop_of param "isBase64Encoded") in
      Some (mkExpressParams path httpMethod headers queryStringParameters body
                            isBase64Encoded)
  end.

(** *** The synthetic response and [send] *)

(** What the program reads and writes on the response object: its status
    code and its header map, keyed by lower-cased name. *)
Record Response := mkResponse {
  statusCode : Z;
  header_map : gmap string string }.

(** A body on its way out: nothing, a string or the bytes of a Buffer. *)
Inductive Chunk := CUndefined | CString (s : string) | CBuffer (bytes : string).

(** The argument of [send]: a Buffer or any other value. *)
Inductive Body := BValue (v : value) | BBuffer (bytes : string).

(** The framework and library calls [send] goes through. *)
Class Framework := {
  (** the header value [res.type(t)] stores for the short name [t] *)
  content_type_of : string -> string;
  (** [contentType.format] of the parsed type with its charset parameter
      set; [None] when [contentType.parse] throws *)
  format_charset : string -> string -> option string;
  (** [s.length], in UTF-16 code units *)
  utf16_length : string -> Z }.

Record App := mkApp {
  (** the setting [etag fn], when it is a function *)
  etag_fn : option (Chunk -> option string -> string) }.

Record SendRequest := mkSendRequest {
  method : string;
  (** the getter [req.fresh], read against the response as it stands *)
  fresh : Response -> bool }.

Definition get (name : string) (r : Response) : option string :=
  header_map r !! toLowerCase name.

Definition set (name value : string) (r : Response) : Response :=
  mkResponse (statusCode r) (<[toLowerCase name := value]> (header_map r)).

Definition removeHeader (name : string) (r : Response) : Response :=
  mkResponse (statusCode r) (delete (toLowerCase name) (header_map r)).

Definition status (code : Z) (r : Response) : Response :=
  mkResponse code (header_map r).

Definition type_ `{Framework} (t : string) (r : Response) : Response :=
  set "Content-Type" (content_type_of t) r.

(** [!h] on a header read. *)
Definition unset (h : option string) : bool :=
  match h with
  | Some s => String.eqb s ""
  | None => true
  end.

Definition setCharset `{Framework} (type charset : string) : option string :=
  if String.eqb type "" || String.eqb charset "" then Some type
  else format_charset type charset.

(** How [send] hands the body on: [end()] or [end(chunk, encoding)]. *)
Inductive EndCall :=
| EndNoArgs
| EndWith (chunk : Chunk) (encoding : option string).

Inductive SendResult :=
| Throws
| ReturnsJson (v : value)
| Ends (r : Response) (call : EndCall).

(** [switch (typeof chunk)] *)
Inductive Dispatch :=
| ToJson (v : value)
| Continue (chunk : Chunk) (r : Response).

Definition send_dispatch `{Framework} (b : Body) (r : Response) : Dispatch :=
  match b with
  | BValue (VStr s) =>
      Continue (CString s)
               (if unset (get "Content-Type" r) then type_ "html" r else r)
  | BValue VNull => Continue (CString "") r
  | BBuffer bytes =>
      Continue (CBuffer bytes)
               (if unset (get "Content-Type" r) then type_ "bin" r else r)
  | BValue VUndefined => Continue CUndefined r
  | BValue v => ToJson v
  end.

(** write strings in utf-8: the encoding, and the response with its
    Content-Type rewritten; [None] when [setCharset] throws. *)
Definition send_utf8 `{Framework} (chunk : Chunk) (r : Response)
  : option (option string * Response) :=
  match chunk with
  | CString _ =>
      match get "Content-Type" r with
      | Some type =>
          match setCharset type "utf-8" with
          | Some t => Some (Some "utf8", set "Content-Type" t r)
          | None => None
          end
      | None => Some (Some "utf8", r)
      end
  | _ => Some (None, r)
  end.

Definition byte_length (s : string) : Z := Z.of_nat (String.length s).

(** populate Content-Length *)
Definition send_length `{Framework} (generateETag : bool) (chunk : Chunk)
  (encoding : option string) (r : Response)
  : Chunk * option string * option Z * Response :=
  match chunk with
  | CUndefined => (chunk, encoding, None, r)
  | CBuffer bytes =>
      let len := byte_length bytes in
      (chunk, encoding, Some len, set "Content-Length" (pretty len) r)
  | CString s =>
      if negb generateETag && (utf16_length s <? 1000)
      then let len := byte_length s in
           (chunk, encoding, Some len, set "Content-Length" (pretty len) r)
      else let len := byte_length s in
           (CBuffer s, None, Some len, set "Content-Length" (pretty len) r)
  end.

(** populate ETag *)
Definition send_etag (app : App) (generateETag : bool) (chunk : Chunk)
  (encoding : option string) (len : option Z) (r : Response) : Response :=
  match etag_fn app, len with
  | Some etagFn, Some _ =>
      if generateETag
      then let etag := etagFn chunk encoding in
           if String.eqb etag "" then r else set "ETag" etag r
      else r
  | _, _ => r
  end.

(** strip irrelevant headers *)
Definition send_strip (chunk : Chunk) (r : Response) : Chunk * Response :=
  if (statusCode r =? 204) || (statusCode r =? 304)
  then (CString "",
        removeHeader "Transfer-Encoding"
          (removeHeader "Content-Length" (removeHeader "Content-Type" r)))
  else (chunk, r).

(** alter headers for 205 *)
Definition send_205 (chunk : Chunk) (r : Response) : Chunk * Response :=
  if statusCode r =? 205
  then (CString "", removeHeader "Transfer-Encoding" (set "Content-Length" "0" r))
  else (chunk, r).

Definition send_respond (req : SendRequest) (chunk : Chunk)
  (encoding : option string) : EndCall :=
  if String.eqb (method req) "HEAD" then EndNoArgs else EndWith chunk encoding.

(** [send] from [// write strings in utf-8] on, once the switch chose the
    chunk. *)
Definition send_body `{Framework} (app : App) (req : SendRequest) (chunk : Chunk)
  (r1 : Response) : SendResult :=
  match send_utf8 chunk r1 with
  | None => Throws
  | Some (encoding, r2) =>
      let generateETag :=
        unset (get "ETag" r2) && bool_decide (is_Some (etag_fn app)) in
      let '(chunk3, encoding3, len, r3) :=
        send_length generateETag chunk encoding r2 in
      let r4 := send_etag app generateETag chunk3 encoding3 len r3 in
      let r5 := if fresh req r4 then status 304 r4 else r4 in
      let '(chunk6, r6) := send_strip chunk3 r5 in
      let '(chunk7, r7) := send_205 chunk6 r6 in
      Ends r7 (send_respond req chunk7 encoding3)
  end.

(** [res.send(body)], up to the call of [this.json] or [this.end]. *)
Definition send `{Framework} (app : App) (req : SendRequest) (b : Body)
  (r : Response) : SendResult :=
  match send_dispatch b r with
  | ToJson v => ReturnsJson v
  | Continue chunk r1 => send_body app req chunk r1
  end.

(** The body a call of [end] carries, if any. *)
Definition written (call : EndCall) : option Chunk :=
  match call with
  | EndNoArgs => None
  | EndWith chunk _ => Some chunk
  end.

(** *** The capture shim of [expressWXServer] *)

Record Outcome := mkOutcome {
  out_statusCode : Z;
  out_body : value }.

(** An argument of the overloaded [write]/[end]: left out, a callback, a
    string (a chunk or an encoding name) or a Buffer. *)
Inductive Arg :=
| AUndefined
| AFunction (f : nat)
| AString (s : string)
| ABuffer (bytes : string).

Definition is_function (a : Arg) : bool :=
  match a with
  | AFunction _ => true
  | _ => false
  end.

Definition truthy_arg (a : Arg) : bool :=
  match a with
  | AUndefined => false
  | AString s => negb (String.eqb s "")
  | AFunction _ | ABuffer _ => true
  end.

(** A chunk [write] is given: a string or a Buffer, the types
    [ServerResponse.write] accepts. *)
Inductive Payload := PString (s : string) | PBuffer (bytes : string).

(** A call forwarded to the saved [_write] or [_end]. *)
Inductive Forwarded :=
| FwdWrite3 (chunk : Payload) (encoding : Arg) (cb : Arg)
| FwdWrite2 (chunk : Payload) (cb : Arg)
| FwdEnd (data : Arg) (encoding : Arg) (callback : Arg).

(** One invocation: the accumulator [resBody], the response, the promise
    ([settled] holds its value once fulfilled), how often [resolve] was
    called and the calls forwarded so far. *)
Record Shim := mkShim {
  resBody : string;
  res : Response;
  settled : option Outcome;
  resolve_calls : nat;
  forwarded : list Forwarded }.

Definition init_shim (r : Response) : Shim := mkShim "" r None 0 [].

(** The caller-identity context of [wx-server-sdk]. *)
Record WXContext := mkWXContext {
  OPENID : value;
  APPID : value;
  UNIONID : value }.

(** [Buffer.from(chunk, 'base64').toString('utf8')] on a Buffer copies it
    (the encoding is not used for a Buffer) and decodes its bytes;
    [chunk.toString()] on a string is the string. *)
Definition decode (chunk : Payload) : string :=
  match chunk with
  | PBuffer bytes => bytes
  | PString s => s
  end.

Definition write (chunk : Payload) (encodingOrCallback callback : Arg) (st : Shim)
  : Shim :=
  let resBody' := resBody st ++ decode chunk in
  let '(encoding, cb) :=
    if is_function encodingOrCallback
    then (AUndefined, encodingOrCallback)
    else (encodingOrCallback, callback) in
  let call :=
    if truthy_arg encoding then FwdWrite3 chunk encoding cb
    else FwdWrite2 chunk cb in
  mkShim resBody' (res st) (settled st) (resolve_calls st)
         (forwarded st ++ [call])%list.

(** [resolve(o)] of the promise: only the first call fulfils it. *)
Definition resolve (o : Outcome) (st : Shim) : Shim :=
  mkShim (resBody st) (res st)
         (match settled st with
          | None => Some o
          | Some first => Some first
          end)
         (S (resolve_calls st)) (forwarded st).

(** The overloads of [end]: the data, the encoding and the callback. *)
Definition end_signature (chunk encodingOrCb cb : Arg) : Arg * Arg * Arg :=
  if is_function chunk then (AUndefined, AUndefined, chunk)
  else if is_function encodingOrCb then (chunk, AUndefined, encodingOrCb)
  else (chunk, encodingOrCb, cb).

(** The own enumerable properties [{...v}] copies. *)
Definition own_props (v : value) : list (string * value) :=
  match v with
  | VObj props => props
  | VArr items => imap (λ i x, (pretty i, x)) items
  | _ => []
  end.

Definition wx_field (wxContext : option WXContext) (f : WXContext -> value) : value :=
  match wxContext with
  | Some w => f w
  | None => VUndefined
  end.

Definition wx_object (wxContext : option WXContext) : value :=
  VObj [("openid", wx_field wxContext OPENID);
        ("appid", wx_field wxContext APPID);
        ("unionid", wx_field wxContext UNIONID)].

(** [typeof v === 'object' && v !== null] *)
Definition is_object (v : value) : bool :=
  match v with
  | VArr _ | VObj _ => true
  | _ => false
  end.

(** The response body [end] settles on, from the accumulated buffer. *)
Definition response_body `{Parser} (wxContext : option WXContext) (buf : string)
  : value :=
  let responseBody :=
    match JSON_parse buf with
    | Some v => v
    | None => VStr buf
    end in
  let responseBody :=
    if is_object responseBody
    then VObj (set_prop "wxContext" (wx_object wxContext) (own_props responseBody))
    else responseBody in
  if jstype_eqb (typeof responseBody) TObject
  then JSON_stringify responseBody
  else responseBody.

(** The text a call [end(chunk, ...)] adds to the accumulator. *)
Definition final_text (chunk : Arg) : string :=
  match chunk with
  | AString s => s
  | ABuffer bytes => bytes
  | AUndefined | AFunction _ => ""
  end.

(** The state after the final chunk, if any, went through [write], and the
    arguments [_end] will get. *)
Definition end_write (chunk encodingOrCb cb : Arg) (st : Shim)
  : Shim * (Arg * Arg * Arg) :=
  let '(data, encoding, callback) := end_signature chunk encodingOrCb cb in
  if truthy_arg data
  then let text := match data with
                   | ABuffer bytes => bytes
                   | AString s => s
                   | _ => ""
                   end in
       (write (PString text) encoding AUndefined st,
        (AString text, encoding, callback))
  else (st, (data, encoding, callback)).

Definition end_ `{Parser} (wxContext : option WXContext)
  (chunk encodingOrCb cb : Arg) (st : Shim) : Shim :=
  let '(st1, (data, encoding, callback)) := end_write chunk encodingOrCb cb st in
  let st2 :=
    resolve (mkOutcome (statusCode (res st1))
                       (response_body wxContext (resBody st1))) st1 in
  mkShim (resBody st2) (res st2) (settled st2) (resolve_calls st2)
         (forwarded st2 ++ [FwdEnd data encoding callback])%list.

(** What the application may do with the response while it runs. *)
Inductive ShimOp :=
| DoWrite (chunk : Payload) (encodingOrCallback callback : Arg)
| DoEnd (chunk encodingOrCb cb : Arg)
| DoStatus (code : Z)
| DoSetHeader (name value : string).

Definition step `{Parser} (wxContext : option WXContext) (op : ShimOp) (st : Shim)
  : Shim :=
  match op with
  | DoWrite c e cb => write c e cb st
  | DoEnd c e cb => end_ wxContext c e cb st
  | DoStatus code =>
      mkShim (resBody st) (status code (res st)) (settled st) (resolve_calls st)
             (forwarded st)
  | DoSetHeader n v =>
      mkShim (resBody st) (set n v (res st)) (settled st) (resolve_calls st)
             (forwarded st)
  end.

Definition run `{Parser} (wxContext : option WXContext) (ops : list ShimOp)
  (st : Shim) : Shim :=
  fold_left (λ s op, step wxContext op s) ops st.

(** [this.end(...)] as [send] calls it, through the shim. *)
Definition end_call `{Parser} (wxContext : option WXContext) (call : EndCall)
  (st : Shim) : Shim :=
  match call with
  | EndNoArgs => end_ wxContext AUndefined AUndefined AUndefined st
  | EndWith chunk encoding =>
      end_ wxContext
           (match chunk with
            | CUndefined => AUndefined
            | CString s => AString s
            | CBuffer bytes => ABuffer bytes
            end)
           (match encoding with
            | Some e => AString e
            | None => AUndefined
            end)
           AUndefined st
  end.

(** [res.send(body)] on the response of the shim, when it reaches
    [this.end]. *)
Definition send_shim `{Parser} `{Framework} (wxContext : option WXContext)
  (app : App) (req : SendRequest) (b : Body) (st : Shim) : option Shim :=
  match send app req b (res st) with
  | Ends r call =>
      Some (end_call wxContext call
              (mkShim (resBody st) r (settled st) (resolve_calls st)
                      (forwarded st)))
  | _ => None
  end.

End Bridge.

(** ** Concrete inputs the statements below are evaluated at *)

Module Scenario.
Import JS.

(** A cookie configured with [maxAge: 60000] when the clock showed [1000]. *)
Definition minute_cookie : SessionMw.Cookie :=
  SessionMw.new_Cookie
    (Some (SessionMw.mkCookieOptions None None (Some 60000) None None None None
                                     None None))
    (SessionMw.steady_cookie 1000).

Definition minute_session : SessionMw.Session :=
  SessionMw.mkSession "s1" (Some minute_cookie).

(** A session with no cookie at all. *)
Definition bare_session : SessionMw.Session := SessionMw.mkSession "s2" None.

Definition two_sessions : SessionMw.MemoryStore :=
  SessionMw.commit (SessionMw.commit SessionMw.new_MemoryStore "s1" minute_session)
                   "s2" bare_session.

(** A request without a session, as the first request of a client is. *)
Definition first_request : SessionMw.Request :=
  SessionMw.mkRequest "" None None None "/".

(** A request behind a proxy that forwarded [X-Forwarded-Proto: https]. *)
Definition proxied_request : SessionMw.Request :=
  SessionMw.mkRequest "" None None (Some {["x-forwarded-proto" := "https"]}) "/".

(** The same request with the header name spelled as [isSecure] reads it. *)
Definition misspelled_request : SessionMw.Request :=
  SessionMw.mkRequest "" None None (Some {["x-forworded-proto" := "https"]}) "/".

(** An event whose [body] is [null], as a gateway sends for a request
    without a body. *)
Definition null_body_event : value := VObj [("path", VStr "/hello"); ("body", VNull)].

(** The caller-identity context of the end-to-end scenario: only the open
    id is known. *)
Definition oid_context : Bridge.WXContext :=
  Bridge.mkWXContext (VStr "OID") VUndefined VUndefined.

(** The JSON text of the object with the single property [a] equal to 1. *)
Definition a1_text : string := "{" ++ JSON.quote "a" ++ ":1}".

(** The text the scenario expects back. *)
Definition a1_merged_text : string :=
  "{" ++ JSON.quote "a" ++ ":1," ++ JSON.quote "wxContext" ++ ":{"
      ++ JSON.quote "openid" ++ ":" ++ JSON.quote "OID" ++ "}}".

(** A fresh response with status 200, before the application ran. *)
Definition fresh_shim : Bridge.Shim := Bridge.init_shim (Bridge.mkResponse 200 ∅).

(** Media types and charset formatting as the mime and content-type
    packages answer for the two short names [send] uses. *)
Definition reference_framework : Bridge.Framework :=
  {| Bridge.content_type_of t :=
       if String.eqb t "html" then "text/html; charset=utf-8"
       else if String.eqb t "bin" then "application/octet-stream"
       else t;
     Bridge.format_charset type charset :=
       let i := indexOf ";"%char type in
       Some ((if i =? -1 then type else substr0 i type) ++ "; charset=" ++ charset);
     Bridge.utf16_length s := Z.of_nat (String.length s) |}.

Definition get_request : Bridge.SendRequest := Bridge.mkSendRequest "GET" (λ _, false).

Definition no_etag_app : Bridge.App := Bridge.mkApp None.

End Scenario.

(** ** The session middleware, continued: the rest of [MemoryStore] and
    [Session] *)

Module SessionOps.
Import JS SessionMw.

Definition with_session (v : option Session) (req : Request) : Request :=
  mkRequest (sessionId req) v (req_secure req) (header req) (originalUrl req).

(** [new Session(req, session)]: the id is the request's; of the stored
    session, a property is copied when it is not [null] and the new object
    has none or a falsy one, so the stored id only replaces an empty id and
    the stored cookie is taken over. *)
Definition new_Session (req : Request) (stored : option Session) : Session :=
  match stored with
  | Some s =>
      mkSession (if String.eqb (sessionId req) "" then id s else sessionId req)
                (cookie s)
  | None => mkSession (sessionId req) None
  end.

(** [store.createSession(req, session)] with its effect on the request:
    [req.session] becomes a new session built from the rebuilt one. *)
Definition createSession_on (req : Request) (s : Session) (clock : ExpiresClock)
  : Request * Session :=
  let rebuilt := createSession s clock in
  (with_session (Some (new_Session req (Some rebuilt))) req, rebuilt).


(** [store.regenerate(req)]: [destroy] of the request's id, whose callback
    runs [generate] when the store has one. *)
Definition regenerate (gen : option (Request → Request)) (req : Request)
  (st : MemoryStore) : Request * MemoryStore :=
  (match gen with
   | Some g => g req
   | None => req
   end,
   destroy st (sessionId req)).

(** [session.save()] *)
Definition save (this : Session) (st : MemoryStore) : MemoryStore :=
  commit st (id this) this.

(** [session.reload()] on the session of [req]: [get] at time [now], then
    the callback with the clock readings [clock]. The callback has one
    parameter, [session], which is bound to the first argument it is
    called with; when that is truthy the stored object is rebuilt in place
    and [req.session] is bound anew. *)
Definition reload (this : Session) (req : Request) (st : MemoryStore)
  (now : Z) (clock : ExpiresClock) : Request * MemoryStore :=
  let '(found, st') := get st (id this) now in
  match mjoin (callback_arguments found !! 0%nat) with
  | Some session =>
      let '(req', rebuilt) := createSession_on req session clock in
      (req', mkStore (<[id this := rebuilt]> (sessions st')))
  | None => (req, st')
  end.

(** The readiness flag after the store emitted [events], oldest first. *)
Definition after_events (events : list StoreEvent) (mw : Middleware) : Middleware :=
  foldl (λ m ev, on_event ev m) mw events.

(** A session is expired at [now] when its cookie has an expires instant
    that is reached; the Invalid Date is never reached. *)
Definition expired (now : Z) (s : Session) : bool :=
  match cookie s ≫= expires with
  | Some (Instant e) => e <=? now
  | Some InvalidDate | None => false
  end.

(** A cookie that retains a maxAge has an expiry. *)
Definition cookie_dated (c : Cookie) : Prop :=
  is_Some (getOriMaxAge c) → is_Some (expires c).

(** What the constructor and the setters keep true of a cookie: a retained
    maxAge is never [0] and comes with an expiry instant. *)
Definition cookie_ok (c : Cookie) : Prop :=
  getOriMaxAge c ≠ Some 0 ∧ (is_Some (getOriMaxAge c) → is_Some (expires c)).

(** The protocol [isSecure] compares with [https], read off the value of
    the header. *)
Definition proto_of (header : string) : string :=
  let index := indexOf ","%char header in
  if negb (index =? -1)
  then trim (toLowerCase (substr0 index header))
  else trim (toLowerCase header).

(** The value [isSecure] finds under the header name it reads. *)
Definition proto_header (req : Request) : option string :=
  header req ≫= (λ h : gmap string string, h !! "x-forworded-proto").

End SessionOps.

(** ** The bridge, continued: [httpError], [initExpressApp],
    [initExpressRequest] and what the promise of the entry point holds *)

Module BridgeOps.
Import JS JSON Bridge.

(** [{...target, ...source}]: the properties of [source] set on [target]
    one after the other. *)
Definition spread_onto (target source : list (string * value))
  : list (string * value) :=
  foldl (λ acc kv, set_prop kv.1 kv.2 acc) target source.

(** [httpError(statusCode, message, errDtails)] *)
Definition httpError (statusCode : Z) (message : string)
  (errDtails : list (string * value)) : value :=
  VObj (spread_onto [("statusCode", VNum statusCode); ("message", VStr message)]
                    errDtails).

(** *** [initExpressApp] *)

(** One entry of [handlers]: an optional path, and one handler, an array
    of handlers or none. Handlers are named by numbers. *)
Record HandlerEntry := mkHandlerEntry {
  h_path : option string;
  h_handlers : option (nat + list nat) }.

Record ExpressAppConfigs := mkConfigs {
  cfg_app : option nat;
  setters : option (list (string * value));
  cfg_params : option (list ((string + list string) * nat));
  ons : option (list (string * nat));
  handlers_of : option (list HandlerEntry);
  enableSettings : option (list string);
  disableSettings : option (list string);
  configureFn : option nat }.

(** What [initExpressApp] does, call by call. *)
Inductive AppCall :=
| NewApp
| Configure (fn : nat)
| Disable (setting : string)
| Enable (setting : string)
| SetSetting (setting : string) (val : value)
| Param (name : string + list string) (handler : nat)
| On (event : string) (callback : nat)
| Use (path : option string) (handlers : list nat).

(** [list?.forEach(f)] *)
Definition each {A} (l : option (list A)) (f : A → AppCall) : list AppCall :=
  match l with
  | Some items => map f items
  | None => []
  end.

(** The handlers of an entry, one or many, as the spread argument list. *)
Definition flat_handlers (h : HandlerEntry) : list nat :=
  match h_handlers h with
  | Some (inl one) => [one]
  | Some (inr many) => many
  | None => []
  end.

Definition use_call (h : HandlerEntry) : AppCall :=
  match h_path h with
  | Some p => if String.eqb p "" then Use None (flat_handlers h)
              else Use (Some p) (flat_handlers h)
  | None => Use None (flat_handlers h)
  end.

Definition initExpressApp (configs : option ExpressAppConfigs) : list AppCall :=
  let c := default (mkConfigs None None None None None None None None) configs in
  ((match cfg_app c with Some _ => [] | None => [NewApp] end)
   ++ (match configureFn c with Some fn => [Configure fn] | None => [] end)
   ++ each (disableSettings c) Disable
   ++ each (enableSettings c) Enable
   ++ each (setters c) (λ kv, SetSetting kv.1 kv.2)
   ++ each (cfg_params c) (λ nh, Param nh.1 nh.2)
   ++ each (ons c) (λ ec, On ec.1 ec.2)
   ++ each (handlers_of c) use_call)%list.

(** The settings table of the application: [set] stores the value,
    [enable] stores [true], [disable] stores [false]. *)
Definition apply_call (call : AppCall) (settings : gmap string value)
  : gmap string value :=
  match call with
  | Disable k => <[k := VBool false]> settings
  | Enable k => <[k := VBool true]> settings
  | SetSetting k v => <[k := v]> settings
  | _ => settings
  end.

Definition apply_calls (calls : list AppCall) (settings : gmap string value)
  : gmap string value :=
  foldl (λ t call, apply_call call t) settings calls.

(** *** [initExpressRequest] *)

(** The synthetic request: what was assigned to it and what was pushed
    into its stream, [None] being the end marker. *)
Record SyntheticRequest := mkSyntheticRequest {
  req_url : string;
  req_method : string;
  req_headers : value;
  pushed : list (option string) }.

(** The text of [typeof body === 'string' ? body : JSON.stringify(body)]. *)
Definition body_text (body : value) : string :=
  match body with
  | VStr s => s
  | _ => match JSON_stringify body with
         | VStr t => t
         | _ => ""
         end
  end.

Definition initExpressRequest (url method : string) (headers body : value)
  : SyntheticRequest :=
  mkSyntheticRequest url method headers
    ((if truthy body then [Some (body_text body)] else []) ++ [None])%list.

Definition is_end (op : ShimOp) : bool :=
  match op with
  | DoEnd _ _ _ => true
  | _ => false
  end.

(** The bytes a chunk of [send] holds. *)
Definition chunk_bytes (chunk : Chunk) : string :=
  match chunk with
  | CUndefined => ""
  | CString s => s
  | CBuffer bytes => bytes
  end.

(** The bytes [send] is asked to send, for the bodies it sends itself. *)
Definition sent_bytes (b : Body) : option string :=
  match b with
  | BValue (VStr s) => Some s
  | BValue VNull => Some ""
  | BBuffer bytes => Some bytes
  | BValue _ => None
  end.

(** What the promise holds after the application did [ops], told from the
    operations alone: [text] is what was written so far and [code] the
    status code as it stands; the first [end] decides. *)
Fixpoint outcome_of `{Parser} (wxContext : option WXContext) (ops : list ShimOp)
  (text : string) (code : Z) : option Outcome :=
  match ops with
  | [] => None
  | DoWrite chunk _ _ :: rest => outcome_of wxContext rest (text ++ decode chunk) code
  | DoStatus n :: rest => outcome_of wxContext rest text n
  | DoSetHeader _ _ :: rest => outcome_of wxContext rest text code
  | DoEnd chunk _ _ :: _ =>
      Some (mkOutcome code (response_body wxContext (text ++ final_text chunk)))
  end.

Definition is_write (op : ShimOp) : bool :=
  match op with
  | DoWrite _ _ _ => true
  | _ => false
  end.

(** An [end] whose first argument is a chunk that is written. *)
Definition ends_with_chunk (op : ShimOp) : bool :=
  match op with
  | DoEnd chunk _ _ => truthy_arg chunk && negb (is_function chunk)
  | _ => false
  end.

Definition is_fwd_end (call : Forwarded) : bool :=
  match call with
  | FwdEnd _ _ _ => true
  | _ => false
  end.

(** The value the last entry for [k] in a list of key/value pairs gives
    it, if there is one. *)
Definition last_setter (k : string) (l : list (string * value)) : option value :=
  foldl (λ acc kv, if String.eqb kv.1 k then Some kv.2 else acc) None l.

(** The parameters of an event that sets none of the fields. *)
Definition default_params : ExpressParams :=
  mkExpressParams "/" "GET" (VObj []) (VObj []) (VStr "") false.

End BridgeOps.

(** ** Properties of the session middleware *)

Module SessionFacts.
Import JS SessionMw.

Section Store.

Implicit Types (st : MemoryStore) (sid : string) (s : Session) (now : Z).

Lemma getSession_absent st sid now :
  sessions st !! sid = None → getSession st sid now = (None, st).
Proof. intros Hno. unfold getSession. by rewrite Hno. Qed.

(** Reading one id leaves every other entry as it was. *)
Lemma getSession_other st sid sid' now :
  sid ≠ sid' →
  sessions (snd (getSession st sid now)) !! sid' = sessions st !! sid'.
Proof.
  intros Hne. unfold getSession.
  destruct (sessions st !! sid) as [s|]; [|done].
  destruct (cookie s) as [ck|]; [|done].
  destruct (expires ck) as [[e|]|]; [|done..].
  destruct (e <=? now); simpl; [|done].
  by rewrite lookup_delete_ne.
Qed.

(** What [getSession] hands out is the stored session, and it is then still
    stored. *)
Lemma getSession_Some st sid s now :
  fst (getSession st sid now) = Some s →
  sessions st !! sid = Some s ∧ snd (getSession st sid now) = st.
Proof.
  unfold getSession.
  destruct (sessions st !! sid) as [s0|]; [|done].
  destruct (cookie s0) as [ck|]; [|by intros [= ->]].
  destruct (expires ck) as [[e|]|]; [|by intros [= ->]..].
  destruct (e <=? now); simpl; [done|by intros [= ->]].
Qed.

(** An operation addressed to another id keeps the entry of [sid]. *)
Lemma run_op_other st sid op now :
  (∃ sid', op_target op = Some sid' ∧ sid' ≠ sid) →
  sessions (run_op now op st) !! sid = sessions st !! sid.
Proof.
  intros (sid' & Ht & Hne).
  destruct op as [t|t s'|t s'|t|]; simpl in Ht; simplify_eq; simpl.
  - unfold get. by apply getSession_other.
  - by rewrite lookup_insert_ne.
  - unfold touch_store.
    pose proof (getSession_other st sid' sid now Hne) as Ho.
    destruct (getSession st sid' now) as [[cur|] st']; simpl in *.
    + by rewrite lookup_insert_ne.
    + done.
  - unfold destroy. destruct (sessions st !! sid'); simpl; [|done].
    by rewrite lookup_delete_ne.
Qed.

(** C6: a read at or after the cookie's expiry instant deletes the session
    and hands out nothing; a read before it hands out the stored session and
    leaves the store as it is; and expiry is only found by a read of that
    id: whatever the time, an operation addressed to another id leaves the
    session stored, expired or not. *)
Theorem getSession_lazy_expiry st sid s (ck : Cookie) (e : Z) :
  sessions st !! sid = Some s →
  cookie s = Some ck →
  expires ck = Some (Instant e) →
  (∀ now, e ≤ now →
     get st sid now = (None, mkStore (delete sid (sessions st)))
     ∧ sessions (snd (get st sid now)) !! sid = None)
  ∧ (∀ now, now < e → get st sid now = (Some s, st))
  ∧ (∀ now op sid', op_target op = Some sid' → sid' ≠ sid →
       sessions (run_op now op st) !! sid = Some s).
Proof.
  intros Hs Hck He. repeat split.
  - unfold get, getSession. rewrite Hs, Hck, He.
    by destruct (Z.leb_spec e now); [|lia].
  - unfold get, getSession. rewrite Hs, Hck, He.
    destruct (Z.leb_spec e now); [|lia]. simpl. apply lookup_delete_eq.
  - intros now Hlt. unfold get, getSession. rewrite Hs, Hck, He.
    by destruct (Z.leb_spec e now); [lia|].
  - intros now op sid' Ht Hne. rewrite <- Hs. apply run_op_other. eauto.
Qed.

Lemma getSession_lazy_expiry_witness :
  (get Scenario.two_sessions "s1" 61000
   = (None, mkStore (delete "s1" (sessions Scenario.two_sessions))))
  ∧ get Scenario.two_sessions "s1" 60999
    = (Some Scenario.minute_session, Scenario.two_sessions).
Proof.
  destruct (getSession_lazy_expiry Scenario.two_sessions "s1"
              Scenario.minute_session Scenario.minute_cookie 61000)
    as (Hdel & Hkeep & _); [reflexivity..|].
  split.
  - apply (Hdel 61000). lia.
  - apply (Hkeep 60999). lia.
Defined.

(** C10: a stored session with no cookie, or whose cookie has no expires
    value, is handed out at every time and stays stored; and when a read of
    a stored session hands out nothing, its cookie carries an expires
    instant that has been reached. *)
Theorem getSession_without_expires st sid s :
  sessions st !! sid = Some s →
  ((cookie s = None ∨ ∃ ck, cookie s = Some ck ∧ expires ck = None) →
     ∀ now, get st sid now = (Some s, st))
  ∧ (∀ now, fst (get st sid now) = None →
       ∃ ck e, cookie s = Some ck ∧ expires ck = Some (Instant e) ∧ e ≤ now).
Proof.
  intros Hs. split.
  - intros Hc now. unfold get, getSession. rewrite Hs.
    destruct Hc as [-> | (ck & -> & ->)]; done.
  - intros now. unfold get, getSession. rewrite Hs.
    destruct (cookie s) as [ck|] eqn:Hck; [|done].
    destruct (expires ck) as [[e|]|] eqn:He; [|done..].
    destruct (Z.leb_spec e now); simpl; [|done].
    intros _. by exists ck, e.
Qed.

Lemma getSession_without_expires_witness :
  get Scenario.two_sessions "s2" 0
  = (Some Scenario.bare_session, Scenario.two_sessions)
  ∧ get Scenario.two_sessions "s2" 4102444800000
    = (Some Scenario.bare_session, Scenario.two_sessions).
Proof.
  destruct (getSession_without_expires Scenario.two_sessions "s2"
              Scenario.bare_session) as [Hkeep _]; [reflexivity|].
  split; apply Hkeep; by left.
Defined.

End Store.

Section Touch.

Implicit Types (c ck : Cookie) (s : Session) (m e : Z) (d : Date).

Lemma truthy_num_nonzero m : m ≠ 0 → truthy_num (Some m) = true.
Proof. intros Hm. simpl. by destruct (Z.eqb_spec m 0). Qed.

Lemma nonzero_truthy m : m ≠ 0 → negb (m =? 0) = true.
Proof. intros Hm. by destruct (Z.eqb_spec m 0). Qed.

Lemma new_Date_in_range (v : Z) :
  - max_time ≤ v ≤ max_time → new_Date v = Instant v.
Proof.
  intros [Hl Hu]. unfold new_Date.
  destruct (Z.leb_spec (- max_time) v); [|lia].
  by destruct (Z.leb_spec v max_time); [|lia].
Qed.

Lemma new_Date_beyond (v : Z) :
  ¬ (- max_time ≤ v ≤ max_time) → new_Date v = InvalidDate.
Proof.
  intros Hout. unfold new_Date.
  destruct (Z.leb_spec (- max_time) v); [|done].
  destruct (Z.leb_spec v max_time); [lia|done].
Qed.

(** [set expires] with an instant: the time left is retained unless the
    test reads [0]; what is retained is the time left at the second
    reading. *)
Lemma set_expires_instant c e (clock : ExpiresClock) :
  set_expires (Instant e) clock c
  = if e =? at_test clock
    then with_expires (Some (Instant e)) c
    else setOriMaxAge (e - at_store clock) (with_expires (Some (Instant e)) c).
Proof.
  unfold set_expires, maxAge, expires, truthy_number. simpl.
  destruct (Z.eqb_spec (e - at_test clock) 0), (Z.eqb_spec e (at_test clock));
    try lia; done.
Qed.

(** [set expires] with the Invalid Date: the time left reads [NaN] and
    nothing is retained anew. *)
Lemma set_expires_invalid c (clock : ExpiresClock) :
  set_expires InvalidDate clock c = with_expires (Some InvalidDate) c.
Proof. done. Qed.

Lemma set_expires_expires c d (clock : ExpiresClock) :
  expires (set_expires d clock c) = Some d.
Proof.
  destruct d as [e|]; [|done]. rewrite set_expires_instant.
  by destruct (e =? at_test clock).
Qed.

(** [set expires] changes the expiry and what is retained, nothing else. *)
Lemma set_expires_fields c d (clock : ExpiresClock) :
  set_expires d clock c
  = with_maxAge (getOriMaxAge (set_expires d clock c)) (with_expires (Some d) c).
Proof.
  destruct c as [p h ma ex se pa pr dm ss].
  destruct d as [e|]; [|done]. rewrite set_expires_instant.
  by destruct (e =? at_test clock).
Qed.

Lemma set_maxAge_nonzero c m (clock : MaxAgeClock) :
  m ≠ 0 →
  set_maxAge (Some m) clock c
  = set_expires (new_Date (at_sum clock + m)) (then_expires clock) c.
Proof. intros Hm. unfold set_maxAge. by rewrite truthy_num_nonzero. Qed.

(** While the clock stands still, setting [maxAge] to [m] retains [m]. *)
Lemma set_maxAge_steady c m (t : Z) :
  m ≠ 0 → - max_time ≤ t + m ≤ max_time →
  set_maxAge (Some m) (steady_maxAge t) c
  = with_maxAge (Some m) (with_expires (Some (Instant (t + m))) c).
Proof.
  intros Hm Hr. rewrite set_maxAge_nonzero by done. simpl.
  rewrite new_Date_in_range by done. rewrite set_expires_instant. simpl.
  destruct (Z.eqb_spec (t + m) t); [lia|].
  unfold setOriMaxAge. do 2 f_equal. lia.
Qed.

(** [touch] on a cookie that retains a non-zero [m], within the range of
    [Date]: the expiry is the first reading plus [m]; the cookie then
    retains the time left at the last reading. *)
Lemma touch_retained s ck m (clock : MaxAgeClock) :
  cookie s = Some ck → getOriMaxAge ck = Some m → m ≠ 0 →
  - max_time ≤ at_sum clock + m ≤ max_time →
  at_sum clock + m ≠ at_test (then_expires clock) →
  touch clock s
  = mkSession (id s)
      (Some (with_maxAge (Some (at_sum clock + m - at_store (then_expires clock)))
                         (with_expires (Some (Instant (at_sum clock + m))) ck))).
Proof.
  intros Hck Hori Hm Hr Hne. unfold touch. rewrite Hck, Hori.
  rewrite set_maxAge_nonzero by done. rewrite new_Date_in_range by done.
  rewrite set_expires_instant.
  by destruct (Z.eqb_spec (at_sum clock + m) (at_test (then_expires clock))).
Qed.

(** While the clock stands still, [touch] moves the expiry and changes
    nothing else. *)
Lemma touch_steady s ck m (t : Z) :
  cookie s = Some ck → getOriMaxAge ck = Some m → m ≠ 0 →
  touch (steady_maxAge t) s
  = mkSession (id s) (Some (with_expires (Some (new_Date (t + m))) ck)).
Proof.
  intros Hck Hori Hm. unfold touch. rewrite Hck, Hori.
  rewrite set_maxAge_nonzero by done. simpl.
  destruct ck as [p h ma ex se pa pr dm ss]. unfold getOriMaxAge in Hori.
  simpl in Hori. subst ma.
  destruct (new_Date (t + m)) as [e|] eqn:Hd; [|done].
  assert (e = t + m) as ->.
  { unfold new_Date in Hd. by destruct (_ && _); simplify_eq. }
  rewrite set_expires_instant. simpl.
  destruct (Z.eqb_spec (t + m) t); [lia|].
  unfold setOriMaxAge, with_maxAge, with_expires. simpl.
  by replace (t + m - t) with m by lia.
Qed.

(** A cookie configured with a maxAge and no expires retains the maxAge,
    whatever the clock reads. *)
Lemma new_Cookie_retains (o : CookieOptions) m (clock : CookieClock) :
  o_maxAge o = Some m → m ≠ 0 → o_expires o = None →
  getOriMaxAge (new_Cookie (Some o) clock) = Some m
  ∧ expires (new_Cookie (Some o) clock)
    = Some (new_Date (at_sum (for_maxAge clock) + m)).
Proof.
  intros Hma Hm Hex. unfold new_Cookie. simpl. rewrite Hma, Hex.
  rewrite (nonzero_truthy m Hm). split; [done|].
  unfold setOriMaxAge, expires. simpl. apply set_expires_expires.
Qed.

(** C8, at a session whose cookie was configured with [maxAge: 60000] and
    whose [touch] runs while the clock moves from 30000 to 30002: the
    expiry is renewed to 90000, but the cookie no longer retains the
    configured 60000: it retains 59998, the time left at the last reading,
    and the next touch renews the expiry by 59998. The constructor and
    [createSession] set the retained value again after the setter ran;
    [touch] does not. *)
Theorem touch_shrinks_retained_maxAge :
  let clock := mkMaxAgeClock 30000 (mkExpiresClock 30001 30002) in
  let touched := touch clock Scenario.minute_session in
  cookie Scenario.minute_session ≫= getOriMaxAge = Some 60000
  ∧ cookie touched ≫= expires = Some (Instant 90000)
  ∧ cookie touched ≫= getOriMaxAge = Some 59998
  ∧ cookie (touch (steady_maxAge 40000) touched) ≫= expires
    = Some (Instant 99998).
Proof. repeat split; reflexivity. Qed.

(** [createSession] re-applies the retained original after it re-applied
    the expiry. *)
Lemma createSession_keeps_original s ck m (clock : ExpiresClock) :
  cookie s = Some ck → getOriMaxAge ck = Some m → m ≠ 0 →
  ∃ ck', cookie (createSession s clock) = Some ck'
         ∧ getOriMaxAge ck' = Some m ∧ expires ck' = expires ck.
Proof.
  intros Hck Hori Hm. unfold createSession. rewrite Hck. simpl. rewrite Hori.
  rewrite (nonzero_truthy m Hm).
  eexists. split; [reflexivity|]. split; [done|].
  destruct (expires ck) as [d|] eqn:He; [|done].
  unfold setOriMaxAge, expires. simpl. apply set_expires_expires.
Qed.

End Touch.

Section Middleware.

Implicit Types (mw : Middleware) (req : Request).

(** The store is ready until a [disconnect] signal and again after a
    [connect]. *)
Lemma session_starts_ready options : storeReady (session options) = true.
Proof. done. Qed.

Lemma handle_with_session mw req s :
  session_of req = Some s → handle mw req true = [CallNext].
Proof. intros Hs. unfold handle. by rewrite Hs. Qed.

Lemma handle_disconnected mw req :
  session_of req = None → storeReady mw = false →
  handle mw req true = [ConsoleDebug "store is disconnected"; CallNext].
Proof. intros Hs Hr. unfold handle. by rewrite Hs, Hr. Qed.

(** With a ready store and no session on the request the function returns
    at once: it neither establishes a session nor calls [next]. *)
Lemma handle_ready_without_session mw req next :
  session_of req = None → storeReady mw = true → handle mw req next = [].
Proof. intros Hs Hr. unfold handle. by rewrite Hs, Hr. Qed.

(** C4, at the first request of a client (no session yet, store ready, a
    continuation supplied): the middleware runs no effect at all, so the
    continuation is not invoked. *)
Theorem handle_first_request_stops :
  handle (session None) Scenario.first_request true = []
  ∧ CallNext ∉ handle (session None) Scenario.first_request true.
Proof. split; [reflexivity|]. vm_compute. apply not_elem_of_nil. Qed.

Lemma isSecure_untrusted req : isSecure req (Some false) = false.
Proof. done. Qed.

Lemma isSecure_unset req :
  isSecure req None = true ↔ req_secure req = Some true.
Proof. unfold isSecure. by rewrite bool_decide_eq_true. Qed.

(** With a trusted proxy the answer depends on one header only, the one
    spelled [x-forworded-proto]. *)
Lemma isSecure_trusted req :
  let header :=
    or_empty (header req ≫= (λ h : gmap string string, h !! "x-forworded-proto")) in
  let first :=
    if indexOf ","%char header =? -1 then header
    else substr0 (indexOf ","%char header) header in
  isSecure req (Some true) = true ↔ trim (toLowerCase first) = "https".
Proof.
  simpl. unfold isSecure.
  destruct (indexOf _ _ =? -1); simpl; by rewrite String.eqb_eq.
Qed.

(** C9, at a request that carries [x-forwarded-proto: https] from a
    trusted proxy: the header the function reads is spelled
    [x-forworded-proto], so the request is found not secure; it is found
    secure only when the header arrives under the misspelled name. *)
Theorem isSecure_forwarded_https_not_secure :
  isSecure Scenario.proxied_request (Some true) = false
  ∧ header Scenario.proxied_request ≫= (λ h, h !! "x-forwarded-proto")
    = Some "https"
  ∧ isSecure Scenario.misspelled_request (Some true) = true.
Proof. repeat split; reflexivity. Qed.

End Middleware.

End SessionFacts.

(** ** Properties of the bridge *)

Module BridgeFacts.
Import JS JSON Bridge.

Section Normalizer.

Lemma map_string_idem (f : ascii → ascii) (s : string) :
  (∀ c, f (f c) = f c) → map_string f (map_string f s) = map_string f s.
Proof. intros Hf. induction s as [|c r IH]; simpl; [done|]. by rewrite Hf, IH. Qed.

Lemma ascii_upper_idem c : ascii_upper (ascii_upper c) = ascii_upper c.
Proof. by destruct c as [[] [] [] [] [] [] [] []]. Qed.

Lemma toUpperCase_idem s : toUpperCase (toUpperCase s) = toUpperCase s.
Proof. apply map_string_idem, ascii_upper_idem. Qed.

(** Normalization of a record never throws, and its method is in upper
    case. *)
Lemma getExpressParams_total (props : list (string * value)) :
  ∃ p, getExpressParams (VObj props) = Some p
       ∧ toUpperCase (httpMethod p) = httpMethod p.
Proof. eexists. split; [reflexivity|]. simpl. apply toUpperCase_idem. Qed.

(** The defaults of a field that is [undefined] (absent) or whose [typeof]
    is not the expected one. *)
Lemma string_or_default dflt (x : value) :
  typeof x ≠ TString → string_or dflt x = dflt.
Proof.
  unfold string_or. destruct x; simpl; rewrite ?orb_true_r; congruence.
Qed.

Lemma object_or_empty_default (x : value) :
  typeof x ≠ TObject → object_or_empty x = VObj [].
Proof.
  unfold object_or_empty. destruct x; simpl; rewrite ?orb_true_r; congruence.
Qed.

(** X29: in the parameters of an event record, a field whose [typeof] is
    not the expected one (which covers a field left out) has its default:
    path [/], method [GET], no headers, no query, the empty body; the
    base64 flag is [false] when the field is left out. *)
Lemma getExpressParams_defaults (props : list (string * value)) (p : ExpressParams) :
  getExpressParams (VObj props) = Some p →
  (typeof (assoc "path" props) ≠ TString → path p = "/")
  ∧ (typeof (assoc "httpMethod" props) ≠ TString → httpMethod p = "GET")
  ∧ (typeof (assoc "headers" props) ≠ TObject → headers p = VObj [])
  ∧ (typeof (assoc "queryStringParameters" props) ≠ TObject →
       queryStringParameters p = VObj [])
  ∧ (typeof (assoc "body" props) ≠ TString → typeof (assoc "body" props) ≠ TObject →
       body p = VStr "")
  ∧ (assoc "isBase64Encoded" props = VUndefined → isBase64Encoded p = false).
Proof.
  intros [= <-]. simpl. unfold prop_of. simpl. repeat split.
  - apply string_or_default.
  - intros Hm. rewrite string_or_default by done. reflexivity.
  - apply object_or_empty_default.
  - apply object_or_empty_default.
  - destruct (assoc "body" props); simpl; rewrite ?orb_true_r; congruence.
  - by intros ->.
Qed.

Lemma getExpressParams_empty :
  getExpressParams (VObj [])
  = Some (mkExpressParams "/" "GET" (VObj []) (VObj []) (VStr "") false).
Proof. reflexivity. Qed.

(** C2, at an event whose [body] is [null]: normalization yields the body
    text [null] (four characters), not the empty string it yields when the
    field is left out. *)
Theorem getExpressParams_null_body :
  getExpressParams Scenario.null_body_event
  = Some (mkExpressParams "/hello" "GET" (VObj []) (VObj []) (VStr "null") false)
  ∧ getExpressParams (VObj [("path", VStr "/hello")])
    = Some (mkExpressParams "/hello" "GET" (VObj []) (VObj []) (VStr "") false).
Proof. split; reflexivity. Qed.

End Normalizer.

Section Capture.

Context `{Parser}.

Implicit Types (st : Shim) (wx : option WXContext) (o : Outcome).

Lemma set_prop_assoc k v props : assoc k (set_prop k v props) = v.
Proof.
  induction props as [|[k' v'] rest IH]; simpl.
  - by rewrite String.eqb_refl.
  - destruct (String.eqb k k') eqn:E; simpl; rewrite ?String.eqb_refl, ?E; done.
Qed.

Lemma set_prop_assoc_ne k k' v props :
  k ≠ k' → assoc k' (set_prop k v props) = assoc k' props.
Proof.
  intros Hne. induction props as [|[k0 v0] rest IH]; simpl.
  - destruct (String.eqb_spec k' k); [congruence|done].
  - destruct (String.eqb_spec k k0) as [->|]; simpl.
    + destruct (String.eqb_spec k' k0); [congruence|done].
    + by rewrite IH.
Qed.

Lemma append_empty_r (s : string) : s ++ "" = s.
Proof.
  induction s as [|c r IH]; [reflexivity|].
  change (String c (r ++ "") = String c r). by rewrite IH.
Qed.

(** [write] appends the decoded chunk and touches neither the promise nor
    the response. *)
Lemma write_spec c e cb st :
  resBody (write c e cb st) = resBody st ++ decode c
  ∧ settled (write c e cb st) = settled st
  ∧ res (write c e cb st) = res st.
Proof. unfold write. by destruct (is_function e); simpl. Qed.

Lemma end_signature_data chunk e cb :
  final_text (end_signature chunk e cb).1.1 = final_text chunk.
Proof.
  unfold end_signature. destruct (is_function chunk) eqn:Hf.
  - by destruct chunk.
  - by destruct (is_function e).
Qed.

(** The accumulator [end] parses: what was written before, then the final
    chunk. *)
Lemma end_write_resBody chunk e cb st :
  resBody (fst (end_write chunk e cb st)) = resBody st ++ final_text chunk.
Proof.
  rewrite <- (end_signature_data chunk e cb). unfold end_write.
  destruct (end_signature chunk e cb) as [[d en] c]. simpl.
  destruct d as [|f|s|b]; simpl; rewrite ?append_empty_r; try done.
  - rewrite (proj1 (write_spec _ _ _ _)). apply append_empty_r.
  - destruct s; simpl; [by rewrite append_empty_r|].
    by rewrite (proj1 (write_spec _ _ _ _)).
  - by rewrite (proj1 (write_spec _ _ _ _)).
Qed.

Lemma end_write_settled chunk e cb st :
  settled (fst (end_write chunk e cb st)) = settled st
  ∧ res (fst (end_write chunk e cb st)) = res st.
Proof.
  unfold end_write. destruct (end_signature chunk e cb) as [[d en] c].
  destruct (truthy_arg d); simpl; [|done].
  by destruct (write_spec
                 (PString match d with
                          | ABuffer bytes => bytes
                          | AString s => s
                          | _ => ""
                          end) en AUndefined st) as (_ & -> & ->).
Qed.

Lemma end_settled wx chunk e cb st :
  settled (end_ wx chunk e cb st)
  = match settled st with
    | None => Some (mkOutcome (statusCode (res st))
                              (response_body wx (resBody st ++ final_text chunk)))
    | Some first => Some first
    end.
Proof.
  pose proof (end_write_resBody chunk e cb st) as Hb.
  pose proof (end_write_settled chunk e cb st) as [Hs Hr].
  unfold end_. destruct (end_write chunk e cb st) as [st1 [[d en] c]].
  simpl in *. by rewrite Hs, Hr, Hb.
Qed.

(** C1: the first [end] settles the outcome on the status code and on a
    body computed from the whole accumulator (what was written, then the
    final chunk). When the accumulator parses to an object or array, the
    body is the serialization of its properties with [wxContext] set to the
    three identity fields, the other properties as parsed; when it does not
    parse, the body is the accumulator itself. *)
Theorem end_merges_identity wx chunk e cb st :
  settled st = None →
  let buf := resBody st ++ final_text chunk in
  ∃ o, settled (end_ wx chunk e cb st) = Some o
    ∧ out_statusCode o = statusCode (res st)
    ∧ (∀ v, JSON_parse buf = Some v → is_object v = true →
         let merged := set_prop "wxContext" (wx_object wx) (own_props v) in
         out_body o = JSON_stringify (VObj merged)
         ∧ assoc "wxContext" merged
           = VObj [("openid", wx_field wx OPENID); ("appid", wx_field wx APPID);
                   ("unionid", wx_field wx UNIONID)]
         ∧ ∀ k, k ≠ "wxContext" → assoc k merged = assoc k (own_props v))
    ∧ (JSON_parse buf = None → out_body o = VStr buf).
Proof.
  intros Hns buf. rewrite end_settled, Hns. eexists. split; [reflexivity|].
  split; [done|]. simpl. fold buf. split.
  - intros v Hv Hobj. unfold response_body. rewrite Hv, Hobj. simpl.
    split; [done|]. split; [apply set_prop_assoc|].
    intros k Hk. by apply set_prop_assoc_ne.
  - intros Hv. unfold response_body. by rewrite Hv.
Qed.

Lemma step_keeps_settled wx op st o :
  settled st = Some o → settled (step wx op st) = Some o.
Proof.
  intros Hs. destruct op as [c e cb|c e cb|code|n v]; simpl; try done.
  - by destruct (write_spec c e cb st) as (_ & -> & _).
  - by rewrite end_settled, Hs.
Qed.

Lemma run_keeps_settled wx ops st o :
  settled st = Some o → settled (run wx ops st) = Some o.
Proof.
  revert st. induction ops as [|op ops IH]; intros st Hs; simpl; [done|].
  apply IH. by apply step_keeps_settled.
Qed.

(** Until the first [end], nothing settles the outcome. *)
Lemma step_unsettled wx op st :
  settled st = None → (∀ c e cb, op ≠ DoEnd c e cb) →
  settled (step wx op st) = None.
Proof.
  intros Hs Hop. destruct op as [c e cb|c e cb|code|n v]; simpl; try done.
  - by destruct (write_spec c e cb st) as (_ & -> & _).
  - by destruct (Hop c e cb).
Qed.

(** C3: the first [end] settles the outcome, and whatever the application
    does afterwards (more writes, a second [end], a new status code) the
    settled outcome stays the one of the first [end]. *)
Theorem outcome_settled_once wx chunk e cb st (ops : list ShimOp) :
  settled st = None →
  ∃ o, settled (end_ wx chunk e cb st) = Some o
       ∧ settled (run wx ops (end_ wx chunk e cb st)) = Some o.
Proof.
  intros Hns. rewrite end_settled, Hns. eexists. split; [reflexivity|].
  apply run_keeps_settled. by rewrite end_settled, Hns.
Qed.

(** X30: what the settled body can be: a string, unless the accumulator
    parses to a JSON number or boolean, which then is the body as parsed. *)
Lemma response_body_type wx (buf : string) :
  typeof (response_body wx buf) = TString
  ∨ ∃ v, JSON_parse buf = Some v ∧ response_body wx buf = v
         ∧ typeof v ≠ TString ∧ is_object v = false ∧ v ≠ VNull.
Proof.
  unfold response_body. destruct (JSON_parse buf) as [v|]; [|by left].
  destruct v; simpl; eauto; right; eexists; by repeat split.
Qed.

End Capture.

Lemma end_merges_identity_witness :
  settled Scenario.fresh_shim = None
  ∧ settled (@end_ reference_parser (Some Scenario.oid_context)
               (AString Scenario.a1_text) (AString "utf8") AUndefined
               Scenario.fresh_shim)
    = Some (mkOutcome 200 (VStr Scenario.a1_merged_text)).
Proof.
  split; [reflexivity|].
  destruct (@end_merges_identity reference_parser (Some Scenario.oid_context)
              (AString Scenario.a1_text) (AString "utf8") AUndefined
              Scenario.fresh_shim eq_refl)
    as (o & -> & Hcode & Hobj & _).
  destruct (Hobj (VObj [("a", VNum 1)]) eq_refl eq_refl) as (Hbody & _).
  destruct o as [code body]. simpl in Hcode, Hbody. by subst.
Defined.

Lemma outcome_settled_once_witness :
  settled (run (H:=reference_parser) None
               [DoStatus 500; DoWrite (PString "late") AUndefined AUndefined;
                DoEnd (AString "again") AUndefined AUndefined]
               (@end_ reference_parser None (AString "first") AUndefined AUndefined
                      Scenario.fresh_shim))
  = Some (mkOutcome 200 (VStr "first")).
Proof.
  destruct (@outcome_settled_once reference_parser None (AString "first")
              AUndefined AUndefined Scenario.fresh_shim
              [DoStatus 500; DoWrite (PString "late") AUndefined AUndefined;
               DoEnd (AString "again") AUndefined AUndefined] eq_refl)
    as (o & Hfirst & ->).
  rewrite <- Hfirst. reflexivity.
Defined.

(** C7, at a handler that sends the text [123] (as [res.send] does for the
    number 123 once serialized): the accumulator parses to a number, and
    the outcome settles on that number, not on a string. *)
Theorem outcome_body_number :
  ∃ st o,
    @send_shim reference_parser Scenario.reference_framework None
               Scenario.no_etag_app Scenario.get_request (BValue (VStr "123"))
               Scenario.fresh_shim = Some st
    ∧ settled st = Some o
    ∧ out_statusCode o = 200
    ∧ out_body o = VNum 123
    ∧ typeof (out_body o) = TNumber.
Proof. do 2 eexists. repeat split; vm_compute; reflexivity. Qed.

Section Send.

Context `{Framework}.

Implicit Types (app : App) (req : SendRequest) (r : Response).

(** The names of the headers [send] works on are distinct map keys. *)
Lemma get_set_eq name v r : get name (set name v r) = Some v.
Proof. unfold get, set. simpl. apply lookup_insert_eq. Qed.

Lemma get_remove_eq name r : get name (removeHeader name r) = None.
Proof. unfold get, removeHeader. simpl. apply lookup_delete_eq. Qed.

Lemma get_remove_ne name name' r :
  toLowerCase name ≠ toLowerCase name' →
  get name' (removeHeader name r) = get name' r.
Proof. intros Hne. unfold get, removeHeader. simpl. by rewrite lookup_delete_ne. Qed.

Lemma send_strip_spec chunk r :
  statusCode (send_strip chunk r).2 = statusCode r
  ∧ ((statusCode r = 204 ∨ statusCode r = 304) →
       (send_strip chunk r).1 = CString ""
       ∧ get "Content-Type" (send_strip chunk r).2 = None
       ∧ get "Content-Length" (send_strip chunk r).2 = None
       ∧ get "Transfer-Encoding" (send_strip chunk r).2 = None).
Proof.
  unfold send_strip.
  destruct (Z.eqb_spec (statusCode r) 204) as [E1|N1];
    destruct (Z.eqb_spec (statusCode r) 304) as [E2|N2]; simpl;
    (split; [done|]); try (intros [?|?]; lia); intros _;
    repeat split;
    rewrite ?get_remove_eq, ?get_remove_ne, ?get_remove_eq, ?get_remove_ne,
      ?get_remove_eq by done; done.
Qed.

Lemma send_205_spec chunk r :
  statusCode (send_205 chunk r).2 = statusCode r
  ∧ (statusCode r = 205 →
       (send_205 chunk r).1 = CString ""
       ∧ get "Content-Length" (send_205 chunk r).2 = Some "0"
       ∧ get "Transfer-Encoding" (send_205 chunk r).2 = None)
  ∧ (statusCode r ≠ 205 → send_205 chunk r = (chunk, r)).
Proof.
  unfold send_205. destruct (Z.eqb_spec (statusCode r) 205) as [E|N]; simpl.
  - repeat split; try done.
    + by rewrite get_remove_ne, get_set_eq.
    + apply get_remove_eq.
  - repeat split; done.
Qed.

Lemma get_set_ne name name' v r :
  toLowerCase name ≠ toLowerCase name' → get name' (set name v r) = get name' r.
Proof. intros Hne. unfold get, set. simpl. by rewrite lookup_insert_ne. Qed.

Lemma send_strip_id chunk r :
  statusCode r ≠ 204 → statusCode r ≠ 304 → send_strip chunk r = (chunk, r).
Proof.
  intros H1 H2. unfold send_strip.
  destruct (Z.eqb_spec (statusCode r) 204); [done|].
  by destruct (Z.eqb_spec (statusCode r) 304).
Qed.

Lemma send_205_id chunk r : statusCode r ≠ 205 → send_205 chunk r = (chunk, r).
Proof.
  intros H1. unfold send_205. by destruct (Z.eqb_spec (statusCode r) 205).
Qed.


Lemma send_etag_other app (g : bool) chunk enc (len : option Z) r name :
  toLowerCase "ETag" ≠ toLowerCase name →
  get name (send_etag app g chunk enc len r) = get name r
  ∧ statusCode (send_etag app g chunk enc len r) = statusCode r.
Proof.
  intros Hne. unfold send_etag. destruct (etag_fn app) as [f|]; [|done].
  destruct len; [|done]. destruct g; [|done].
  destruct (String.eqb (f chunk enc) ""); [done|]. by rewrite get_set_ne.
Qed.






End Send.


End BridgeFacts.

(** ** Further properties of the session middleware *)

Module SessionExtra.
Import JS SessionMw SessionOps SessionFacts.

Section StoreOps.

Implicit Types (st : MemoryStore) (sid : string) (s : Session) (now : Z).

(** [getSession] by cases on the entry and on whether it is expired. *)
Lemma getSession_cases st sid now :
  getSession st sid now
  = match sessions st !! sid with
    | None => (None, st)
    | Some s =>
        if expired now s then (None, mkStore (delete sid (sessions st)))
        else (Some s, st)
    end.
Proof.
  unfold getSession, expired.
  destruct (sessions st !! sid) as [s|]; [|done].
  destruct (cookie s) as [ck|]; simpl; [|done].
  by destruct (expires ck) as [[e|]|].
Qed.

Lemma get_commit st sid s now :
  get (commit st sid s) sid now
  = (if expired now s then (None, mkStore (delete sid (sessions st)))
     else (Some s, commit st sid s)).
Proof.
  unfold get. rewrite getSession_cases. unfold commit. simpl.
  rewrite lookup_insert_eq. destruct (expired now s); [|done].
  by rewrite delete_insert_eq.
Qed.

(** X1: a session read back right after [commit] is the one committed, with
    the store unchanged by the read, unless it is already expired, in which
    case the read removes it again; [commit] touches no other id. *)
Theorem commit_then_get st sid s now :
  get (commit st sid s) sid now
  = (if expired now s then (None, mkStore (delete sid (sessions st)))
     else (Some s, commit st sid s))
  ∧ ∀ sid', sid' ≠ sid →
      sessions (commit st sid s) !! sid' = sessions st !! sid'.
Proof.
  split; [apply get_commit|].
  intros sid' Hne. unfold commit. simpl. by rewrite lookup_insert_ne.
Qed.

Lemma destroy_lookup st sid sid' :
  sessions (destroy st sid) !! sid'
  = if decide (sid = sid') then None else sessions st !! sid'.
Proof.
  unfold destroy. destruct (decide (sid = sid')) as [<-|Hne].
  - destruct (sessions st !! sid) eqn:E; simpl; [apply lookup_delete_eq|done].
  - destruct (sessions st !! sid); simpl; [by rewrite lookup_delete_ne|done].
Qed.

(** X2: after [destroy] a read of the id finds nothing, at any time; other
    ids keep their sessions; destroying an id that is not stored, or
    destroying twice, changes nothing more. *)
Theorem destroy_then_get st sid :
  (∀ now, get (destroy st sid) sid now = (None, destroy st sid))
  ∧ (∀ sid', sid' ≠ sid →
       sessions (destroy st sid) !! sid' = sessions st !! sid')
  ∧ (sessions st !! sid = None → destroy st sid = st)
  ∧ destroy (destroy st sid) sid = destroy st sid.
Proof.
  assert (sessions (destroy st sid) !! sid = None) as Hgone.
  { unfold destroy. destruct (sessions st !! sid) eqn:E; simpl; [|done].
    apply lookup_delete_eq. }
  repeat split.
  - intros now. unfold get. by rewrite getSession_cases, Hgone.
  - intros sid' Hne. unfold destroy.
    destruct (sessions st !! sid); simpl; [|done]. by rewrite lookup_delete_ne.
  - intros Hno. unfold destroy. by rewrite Hno.
  - unfold destroy at 1. by rewrite Hgone.
Qed.

(** X3: [store.touch] never creates an entry and never revives an expired
    one (it removes it); on a live entry it keeps the stored id and takes
    the cookie of the session passed in; other ids are not touched. *)
Theorem store_touch_entry st sid s now :
  sessions (touch_store st sid s now) !! sid
  = match sessions st !! sid with
    | Some cur =>
        if expired now cur then None else Some (mkSession (id cur) (cookie s))
    | None => None
    end
  ∧ ∀ sid', sid' ≠ sid →
      sessions (touch_store st sid s now) !! sid' = sessions st !! sid'.
Proof.
  unfold touch_store. rewrite getSession_cases.
  destruct (sessions st !! sid) as [cur|] eqn:E.
  - destruct (expired now cur); simpl.
    + split; [apply lookup_delete_eq|].
      intros sid' Hne. by rewrite lookup_delete_ne.
    + split; [apply lookup_insert_eq|].
      intros sid' Hne. by rewrite lookup_insert_ne.
  - split; [done|]. done.
Qed.



End StoreOps.

Section CookieOps.

Implicit Types (c ck : Cookie) (s : Session) (m e : Z) (d : Date).

(** X5: setting [maxAge] to a non-zero [m] puts the expiry at the first
    clock reading plus [m], and the live maxAge is then the time left until
    that instant. What the cookie retains is the time left at the last
    reading of the call (nothing new when the time left reads [0] at the
    test): [m] while the clock stands still during the call, less than [m]
    when it moves. Past the range of [Date] the expiry is the Invalid Date,
    the live maxAge reads [NaN] and the retained value stays. Setting [0]
    or [undefined] changes nothing, so an expiry cannot be cleared through
    [maxAge]. *)
Theorem set_maxAge_sets c m (clock : MaxAgeClock) :
  m ≠ 0 →
  let e := at_sum clock + m in
  let c' := set_maxAge (Some m) clock c in
  (- max_time ≤ e ≤ max_time →
     c' = (if e =? at_test (then_expires clock)
           then with_expires (Some (Instant e)) c
           else with_maxAge (Some (e - at_store (then_expires clock)))
                            (with_expires (Some (Instant e)) c))
     ∧ ∀ now, maxAge now c' = Some (Finite (e - now)))
  ∧ (¬ (- max_time ≤ e ≤ max_time) →
     c' = with_expires (Some InvalidDate) c
     ∧ ∀ now, maxAge now c' = Some NaN)
  ∧ (∀ t, - max_time ≤ t + m ≤ max_time →
       set_maxAge (Some m) (steady_maxAge t) c
       = with_maxAge (Some m) (with_expires (Some (Instant (t + m))) c))
  ∧ set_maxAge (Some 0) clock c = c
  ∧ set_maxAge None clock c = c.
Proof.
  intros Hm. cbv zeta. rewrite set_maxAge_nonzero by done.
  split; [|split; [|split; [|done]]].
  - intros Hr. rewrite new_Date_in_range by done.
    split; [apply set_expires_instant|].
    intros now. unfold maxAge. by rewrite set_expires_expires.
  - intros Hout. rewrite new_Date_beyond by done. split; [done|].
    intros now. unfold maxAge. by rewrite set_expires_expires.
  - intros t Hr. by apply set_maxAge_steady.
Qed.

Lemma set_maxAge_sets_witness :
  expires (set_maxAge (Some 5000) (mkMaxAgeClock 100 (mkExpiresClock 101 103))
                      Scenario.minute_cookie)
  = Some (Instant 5100)
  ∧ getOriMaxAge (set_maxAge (Some 5000)
                             (mkMaxAgeClock 100 (mkExpiresClock 101 103))
                             Scenario.minute_cookie)
    = Some 4997.
Proof.
  destruct (set_maxAge_sets Scenario.minute_cookie 5000
              (mkMaxAgeClock 100 (mkExpiresClock 101 103)))
    as ([-> _] & _); [lia | vm_compute; split; discriminate |].
  split; reflexivity.
Defined.

(** X6: when the options configure an expires instant other than the
    present one, the new cookie expires at that instant and retains the
    time left until then, also when a maxAge is configured beside it. *)
Theorem new_Cookie_expires_wins (o : CookieOptions) e (clock : CookieClock) :
  o_expires o = Some (Instant e) →
  e ≠ at_test (for_expires clock) →
  expires (new_Cookie (Some o) clock) = Some (Instant e)
  ∧ getOriMaxAge (new_Cookie (Some o) clock)
    = Some (e - at_store (for_expires clock)).
Proof.
  intros He Hne. unfold new_Cookie. simpl. rewrite He.
  rewrite set_expires_instant.
  by destruct (Z.eqb_spec e (at_test (for_expires clock))).
Qed.

Lemma new_Cookie_expires_wins_witness :
  getOriMaxAge
    (new_Cookie (Some (mkCookieOptions None None (Some 60000)
                                       (Some (Instant 9000)) None None None None
                                       None))
                (steady_cookie 1000))
  = Some 8000.
Proof.
  destruct (new_Cookie_expires_wins
              (mkCookieOptions None None (Some 60000) (Some (Instant 9000)) None
                               None None None None) 9000 (steady_cookie 1000))
    as [_ H]; [reflexivity | simpl; lia |]. exact H.
Defined.

Lemma set_expires_dated c d (clock : ExpiresClock) :
  cookie_dated (set_expires d clock c).
Proof. intros _. rewrite set_expires_expires. by eexists. Qed.

Lemma set_maxAge_dated c (ms : option Z) (clock : MaxAgeClock) :
  cookie_dated c → cookie_dated (set_maxAge ms clock c).
Proof.
  intros Hok. unfold set_maxAge. destruct ms as [m|]; [|done].
  destruct (truthy_num (Some m)); [|done]. apply set_expires_dated.
Qed.

(** While the two readings of [set expires] agree, no [0] is retained. *)
Lemma set_expires_ok c d (clock : ExpiresClock) :
  at_test clock = at_store clock →
  cookie_ok c → cookie_ok (set_expires d clock c).
Proof.
  intros Hsame [Hz _]. split; [|apply set_expires_dated].
  destruct d as [e|]; [|done]. rewrite set_expires_instant.
  destruct (Z.eqb_spec e (at_test clock)) as [E|N]; [done|].
  unfold getOriMaxAge, setOriMaxAge. simpl. intros [= H0]. lia.
Qed.

(** The constructor by its two steps: the cookie after the maxAge step
    retains no [0] and has an expiry when it retains a maxAge; the expires
    step follows. *)
Lemma new_Cookie_steps (o : option CookieOptions) (clock : CookieClock) :
  ∃ c1, cookie_ok c1
        ∧ new_Cookie o clock
          = match o_expires (default no_options o) with
            | Some d => set_expires d (for_expires clock) c1
            | None => c1
            end.
Proof.
  unfold new_Cookie.
  set (c0 := mkCookie _ _ None None _ _ _ _ _).
  set (c1 := match o_maxAge _ with Some _ => _ | None => c0 end).
  exists c1. split; [|done]. subst c1.
  destruct (o_maxAge _) as [m|]; [|by split; [|intros [? ?]]].
  destruct (truthy_num (Some m)) eqn:Hm; [|by split; [|intros [? ?]]].
  split.
  - unfold getOriMaxAge, setOriMaxAge. simpl. intros [= ->]. done.
  - intros _. unfold set_maxAge. rewrite Hm.
    change (is_Some (expires (set_expires (new_Date (at_sum (for_maxAge clock) + m))
                                (then_expires (for_maxAge clock)) c0))).
    rewrite set_expires_expires. by eexists.
Qed.

(** X7: a cookie that retains a maxAge has an expiry: this holds of every
    cookie the constructor builds, whatever the clock reads, and the
    setters of [expires] and [maxAge], [touch] and [createSession] keep it
    so. That the retained maxAge is not [0] holds as long as the two
    readings of [set expires] agree; when the clock moves between them a
    [0] can be retained. *)
Theorem cookie_dated_kept :
  (∀ (o : option CookieOptions) clock, cookie_dated (new_Cookie o clock))
  ∧ (∀ c d clock, cookie_dated (set_expires d clock c))
  ∧ (∀ c (ms : option Z) clock,
       cookie_dated c → cookie_dated (set_maxAge ms clock c))
  ∧ (∀ s ck clock, cookie s = Some ck → cookie_dated ck →
       ∃ ck', cookie (touch clock s) = Some ck' ∧ cookie_dated ck')
  ∧ (∀ s ck clock, cookie s = Some ck → cookie_dated ck →
       ∃ ck', cookie (createSession s clock) = Some ck' ∧ cookie_dated ck')
  ∧ (∀ (o : option CookieOptions) clock,
       at_test (for_expires clock) = at_store (for_expires clock) →
       cookie_ok (new_Cookie o clock))
  ∧ (∀ c d clock, at_test clock = at_store clock →
       cookie_ok c → cookie_ok (set_expires d clock c))
  ∧ getOriMaxAge (set_expires (Instant 5000) (mkExpiresClock 4999 5000)
                              (new_Cookie None (steady_cookie 1000)))
    = Some 0.
Proof.
  split; [|split; [apply set_expires_dated|split; [apply set_maxAge_dated|
    split; [|split; [|split; [|split; [apply set_expires_ok|reflexivity]]]]]]].
  - intros o clock. destruct (new_Cookie_steps o clock) as (c1 & [_ H1] & ->).
    destruct (o_expires _) as [d|]; [apply set_expires_dated|done].
  - intros s ck clock Hck Hok. unfold touch. rewrite Hck. eexists.
    split; [done|]. by apply set_maxAge_dated.
  - intros s ck clock Hck Hok. unfold createSession. rewrite Hck. simpl.
    eexists. split; [done|].
    set (c1 := match expires ck with Some _ => _ | None => ck end).
    assert (is_Some (expires ck) → is_Some (expires c1)) as Hex1.
    { subst c1. destruct (expires ck) as [d|] eqn:He; [|by intros [? ?]].
      intros _. rewrite set_expires_expires. by eexists. }
    assert (cookie_dated c1) as H1.
    { subst c1. destruct (expires ck) as [d|] eqn:He;
        [apply set_expires_dated|done]. }
    destruct (getOriMaxAge ck) as [m|] eqn:Hm; [|done].
    destruct (negb (m =? 0)) eqn:Ht; [|done].
    intros _. unfold setOriMaxAge, expires. simpl. apply Hex1.
    apply Hok. by eexists.
  - intros o clock Hsame. destruct (new_Cookie_steps o clock) as (c1 & H1 & ->).
    destruct (o_expires _) as [d|]; [by apply set_expires_ok|done].
Qed.

(** X8: [createSession] rebuilds the cookie with the stored expiry, so the
    live maxAge reads the same at every time (the countdown is not reset),
    and with the stored retained maxAge when there is one; a session
    without a cookie gets the default cookie, which never expires. *)
Theorem createSession_keeps_countdown s (clock : ExpiresClock) :
  match cookie s with
  | Some ck =>
      ∃ ck', cookie (createSession s clock) = Some ck'
             ∧ expires ck' = expires ck
             ∧ (∀ t, maxAge t ck' = maxAge t ck)
             ∧ (truthy_num (getOriMaxAge ck) = true →
                  getOriMaxAge ck' = getOriMaxAge ck)
  | None =>
      cookie (createSession s clock)
      = Some (mkCookie "/" true None None None None None None None)
  end
  ∧ id (createSession s clock) = id s.
Proof.
  split; [|done]. destruct (cookie s) as [ck|] eqn:Hck.
  - unfold createSession. rewrite Hck. simpl. eexists. split; [done|].
    set (c1 := match expires ck with Some _ => _ | None => ck end).
    assert (expires c1 = expires ck) as Hex.
    { subst c1. destruct (expires ck) as [d|] eqn:He; [|done].
      apply set_expires_expires. }
    assert (∀ c2, expires c2 = expires ck → ∀ t, maxAge t c2 = maxAge t ck)
      as Hlive.
    { intros c2 H2 t. unfold maxAge. by rewrite H2. }
    destruct (getOriMaxAge ck) as [m|] eqn:Hm.
    + destruct (negb (m =? 0)) eqn:Ht.
      * split; [done|]. split; [by apply Hlive|]. done.
      * split; [done|]. split; [by apply Hlive|]. simpl. by rewrite Ht.
    + split; [done|]. split; [by apply Hlive|]. done.
  - unfold createSession. by rewrite Hck.
Qed.

(** X15: a cookie rebuilt by the constructor from its JSON form has the
    same path, flags and expiry instant, so its live maxAge reads the same;
    what it retains as maxAge is the time left until the expiry (the
    retained original only when the expiry is the present instant). *)
Theorem toJSON_roundtrip c (clock : CookieClock) :
  cookie_ok c →
  new_Cookie (Some (toJSON c)) clock
  = with_maxAge (match expires c with
                 | Some (Instant e) =>
                     if e =? at_test (for_expires clock) then getOriMaxAge c
                     else Some (e - at_store (for_expires clock))
                 | Some InvalidDate | None => getOriMaxAge c
                 end) c
  ∧ ∀ t, maxAge t (new_Cookie (Some (toJSON c)) clock) = maxAge t c.
Proof.
  intros [Hz Hex].
  assert (new_Cookie (Some (toJSON c)) clock
          = with_maxAge (match expires c with
                         | Some (Instant e) =>
                             if e =? at_test (for_expires clock)
                             then getOriMaxAge c
                             else Some (e - at_store (for_expires clock))
                         | Some InvalidDate | None => getOriMaxAge c
                         end) c) as Heq.
  { destruct c as [p h ma ex se pa pr dm ss].
    unfold getOriMaxAge, expires in *. simpl in *.
    unfold new_Cookie, toJSON, params. simpl.
    destruct ma as [m|]; simpl.
    - assert (m ≠ 0) as Hm by congruence.
      destruct (Hex ltac:(by eexists)) as [d ->].
      rewrite !(nonzero_truthy m Hm).
      rewrite (set_expires_fields _ (new_Date _)).
      generalize (getOriMaxAge
                    (set_expires (new_Date (at_sum (for_maxAge clock) + m))
                       (then_expires (for_maxAge clock))
                       (mkCookie p h None None se pa pr dm ss))).
      intros r. destruct d as [e|].
      + rewrite set_expires_instant.
        by destruct (e =? at_test (for_expires clock)).
      + by rewrite set_expires_invalid.
    - destruct ex as [[e|]|]; [|done..].
      rewrite set_expires_instant.
      by destruct (e =? at_test (for_expires clock)). }
  split; [done|]. intros t. by rewrite Heq.
Qed.

Lemma toJSON_roundtrip_witness :
  getOriMaxAge (new_Cookie (Some (toJSON Scenario.minute_cookie))
                           (steady_cookie 31000))
  = Some 30000.
Proof.
  destruct (toJSON_roundtrip Scenario.minute_cookie (steady_cookie 31000))
    as [-> _].
  - split; [done|]. intros _. by eexists.
  - reflexivity.
Defined.

(** X9: [touch] on a cookie that retains a non-zero maxAge forgets the
    expiry the cookie had. While the clock stands still during each call, a
    touch at [t2] after a touch at [t1] leaves the session as one touch at
    [t2] does; when the clock moves during the first touch it does not,
    since the first touch shrinks what is retained. With no cookie, or no
    retained maxAge, [touch] changes nothing. *)
Theorem touch_after_touch :
  (∀ s ck (old : option Date) clock,
     cookie s = Some ck → truthy_num (getOriMaxAge ck) = true →
     touch clock (mkSession (id s) (Some (with_expires old ck))) = touch clock s)
  ∧ (∀ s (t1 t2 : Z),
       touch (steady_maxAge t2) (touch (steady_maxAge t1) s)
       = touch (steady_maxAge t2) s)
  ∧ touch (steady_maxAge 40000)
          (touch (mkMaxAgeClock 30000 (mkExpiresClock 30001 30002))
                 Scenario.minute_session)
    ≠ touch (steady_maxAge 40000) Scenario.minute_session
  ∧ (∀ s clock, cookie s = None → touch clock s = s)
  ∧ (∀ s ck clock, cookie s = Some ck → truthy_num (getOriMaxAge ck) = false →
       touch clock s = s).
Proof.
  split; [|split; [|split; [|split]]].
  - intros s ck old clock Hck Ht. unfold touch. simpl. rewrite Hck.
    unfold getOriMaxAge in *. simpl.
    destruct (_maxAge ck) as [m|] eqn:Hm; [|done].
    unfold set_maxAge. rewrite Ht. reflexivity.
  - intros s t1 t2. destruct (cookie s) as [ck|] eqn:Hck.
    + destruct (getOriMaxAge ck) as [m|] eqn:Hm.
      * destruct (Z.eq_dec m 0) as [->|Hne].
        -- unfold touch. rewrite Hck, Hm. simpl. by rewrite Hm.
        -- rewrite (touch_steady s ck m t1) by done.
           rewrite (touch_steady s ck m t2) by done.
           by rewrite (touch_steady _ (with_expires (Some (new_Date (t1 + m))) ck)
                         m t2).
      * unfold touch. rewrite Hck, Hm. simpl. by rewrite Hm.
    + unfold touch. rewrite Hck. simpl. by rewrite Hck.
  - vm_compute. discriminate.
  - intros s clock Hck. unfold touch. by rewrite Hck.
  - intros s ck clock Hck Ht. unfold touch. rewrite Hck. destruct s as [i c].
    simpl in *. subst c. do 2 f_equal.
    destruct (getOriMaxAge ck) as [m|]; [|done]. unfold set_maxAge.
    by rewrite Ht.
Qed.

End CookieOps.

Section SessionMethods.

Implicit Types (mw : Middleware) (req : Request) (st : MemoryStore).

(** X10: [regenerate] removes the request's old id from the store and
    leaves every other entry alone, so the new session is not stored until
    it is saved; the request gets the new id and a session under that id
    whose cookie is the configured one with [secure] as [isSecure] finds
    it. On a store without [generate] the request keeps its old id and
    session although the store has dropped them. *)
Theorem regenerate_fresh_session mw (uuid : string) (clock : CookieClock) req st :
  let r := regenerate (Some (generate mw uuid clock)) req st in
  sessionId r.1 = uuid
  ∧ session_of r.1
    = Some (mkSession uuid
              (Some (with_secure (Some (isSecure req (trustProxy mw)))
                                 (new_Cookie (Some (cookieOptions mw)) clock))))
  ∧ sessions r.2 !! sessionId req = None
  ∧ (∀ sid, sid ≠ sessionId req → sessions r.2 !! sid = sessions st !! sid)
  ∧ (regenerate None req st).1 = req.
Proof.
  simpl. split; [done|]. split.
  - reflexivity.
  - split; [|split; [|done]].
    + rewrite destroy_lookup. by rewrite decide_True.
    + intros sid Hne. rewrite destroy_lookup. by rewrite decide_False.
Qed.

(** X11: [reload] never rebuilds the session and never binds
    [req.session] anew: its callback tests the first argument it is called
    with, and [store.get] passes [null] there and the session second. What
    is left of [reload] is the read: the request is as it was, and the
    store is as the read leaves it. So a session saved and then reloaded
    stays stored as it was saved when it is not expired at the read, and is
    removed when it is. *)
Theorem reload_only_reads (this : Session) req st (now : Z) (clock : ExpiresClock) :
  reload this req st now clock = (req, (get st (id this) now).2)
  ∧ reload this req (save this st) now clock
    = (req, if expired now this
            then mkStore (delete (id this) (sessions st))
            else save this st).
Proof.
  assert (∀ st0, reload this req st0 now clock = (req, (get st0 (id this) now).2))
    as Hread.
  { intros st0. unfold reload. by destruct (get st0 (id this) now) as [found st']. }
  split; [apply Hread|]. rewrite Hread. unfold save. rewrite get_commit.
  by destruct (expired now this).
Qed.

End SessionMethods.

Section Secure.

Implicit Types (req : Request) (s : string).

Lemma indexOf_lower_bound (c : ascii) s : -1 ≤ indexOf c s.
Proof.
  induction s as [|d r IH]; simpl; [lia|].
  destruct (Ascii.eqb c d); [lia|]. destruct (Z.eqb_spec (indexOf c r) (-1)); lia.
Qed.

(** The first occurrence of [c] in [first ++ c :: rest], when [first] has
    none, is at the length of [first]. *)
Lemma indexOf_first (c : ascii) (first rest : string) :
  indexOf c first = -1 →
  indexOf c (first ++ String c rest) = Z.of_nat (String.length first).
Proof.
  induction first as [|d r IH]; intros Hno.
  - simpl. by rewrite Ascii.eqb_refl.
  - change ((String d r) ++ String c rest) with (String d (r ++ String c rest)).
    pose proof (indexOf_lower_bound c r) as Hlb.
    simpl in *. destruct (Ascii.eqb c d); [lia|].
    destruct (Z.eqb_spec (indexOf c r) (-1)) as [E|N]; [|lia].
    rewrite (IH E).
    destruct (Z.eqb_spec (Z.of_nat (String.length r)) (-1)); lia.
Qed.

Lemma substring_prefix (first rest : string) :
  String.substring 0 (String.length first) (first ++ rest) = first.
Proof.
  induction first as [|d r IH].
  - by destruct rest.
  - change ((String d r) ++ rest) with (String d (r ++ rest)). simpl.
    by rewrite IH.
Qed.

(** With a trusted proxy, [isSecure] compares [proto_of] of the header
    value (the empty string when there is none) with [https]. *)
Lemma isSecure_proto req :
  isSecure req (Some true)
  = String.eqb (proto_of (or_empty (proto_header req))) "https".
Proof. done. Qed.

(** X12: with a trusted proxy only the first entry of the header value
    counts: for a value [first,rest] the answer is that for [first] alone,
    trimmed and in lower case, whatever [rest] is. *)
Theorem isSecure_first_entry_only req (first rest : string) :
  proto_header req = Some (first ++ "," ++ rest) →
  indexOf ","%char first = -1 →
  isSecure req (Some true) = String.eqb (trim (toLowerCase first)) "https".
Proof.
  intros Hh Hno. rewrite isSecure_proto, Hh. simpl. unfold proto_of.
  change ("," ++ rest) with (String ","%char rest).
  rewrite (indexOf_first ","%char first rest Hno).
  destruct (Z.eqb_spec (Z.of_nat (String.length first)) (-1)) as [E|_]; [lia|].
  simpl. unfold substr0. rewrite Nat2Z.id. by rewrite substring_prefix.
Qed.

Lemma isSecure_first_entry_only_witness :
  isSecure (mkRequest "" None None
              (Some {["x-forworded-proto" := " HTTPS ,http"]}) "/") (Some true)
  = true.
Proof.
  rewrite (isSecure_first_entry_only _ " HTTPS " "http");
    [reflexivity | reflexivity | reflexivity].
Defined.

Lemma ascii_lower_idem c : ascii_lower (ascii_lower c) = ascii_lower c.
Proof. by destruct c as [[] [] [] [] [] [] [] []]. Qed.

Lemma comma_lower d : Ascii.eqb ","%char (ascii_lower d) = Ascii.eqb ","%char d.
Proof. by destruct d as [[] [] [] [] [] [] [] []]. Qed.

Lemma indexOf_comma_lower s :
  indexOf ","%char (toLowerCase s) = indexOf ","%char s.
Proof.
  induction s as [|d r IH]; [done|].
  change (toLowerCase (String d r))
    with (String (ascii_lower d) (toLowerCase r)).
  cbn [indexOf]. by rewrite comma_lower, IH.
Qed.

Lemma substring_map (f : ascii → ascii) (n : nat) s :
  String.substring 0 n (map_string f s) = map_string f (String.substring 0 n s).
Proof.
  revert n. induction s as [|d r IH]; intros n; simpl.
  - by destruct n.
  - destruct n; simpl; [done|]. by rewrite IH.
Qed.

Lemma toLowerCase_idem s : toLowerCase (toLowerCase s) = toLowerCase s.
Proof.
  induction s as [|d r IH]; [done|].
  change (toLowerCase (String d r))
    with (String (ascii_lower d) (toLowerCase r)).
  change (toLowerCase (String (ascii_lower d) (toLowerCase r)))
    with (String (ascii_lower (ascii_lower d)) (toLowerCase (toLowerCase r))).
  by rewrite ascii_lower_idem, IH.
Qed.

Lemma proto_of_lower s : proto_of (toLowerCase s) = proto_of s.
Proof.
  unfold proto_of. rewrite indexOf_comma_lower.
  destruct (negb (indexOf ","%char s =? -1)).
  - unfold substr0, toLowerCase. rewrite substring_map.
    fold toLowerCase. by rewrite toLowerCase_idem.
  - by rewrite toLowerCase_idem.
Qed.

(** X13: with a trusted proxy the answer does not depend on the letter
    case of the header value: two requests whose values agree once put in
    lower case get the same answer. *)
Theorem isSecure_case_insensitive req req' (v v' : string) :
  proto_header req = Some v →
  proto_header req' = Some v' →
  toLowerCase v = toLowerCase v' →
  isSecure req (Some true) = isSecure req' (Some true).
Proof.
  intros Hv Hv' Heq. rewrite !isSecure_proto, Hv, Hv'. simpl.
  by rewrite <- (proto_of_lower v), <- (proto_of_lower v'), Heq.
Qed.

Lemma isSecure_case_insensitive_witness :
  isSecure (mkRequest "" None None
              (Some {["x-forworded-proto" := "HttpS"]}) "/") (Some true)
  = isSecure Scenario.misspelled_request (Some true).
Proof.
  apply (isSecure_case_insensitive _ _ "HttpS" "https"); reflexivity.
Defined.

(** X14: the middleware calls the continuation exactly when the request
    already carries a session or the store is not ready, and the store is
    not ready exactly when the last signal it emitted is [disconnect]
    (before any signal it is ready). *)
Theorem handle_after_events (options : option SessionOptions)
  (events : list StoreEvent) req :
  CallNext ∈ handle (after_events events (session options)) req true
  ↔ is_Some (session_of req) ∨ last events = Some Disconnect.
Proof.
  assert (∀ mw, storeReady (after_events events mw)
                = match last events with
                  | Some Disconnect => false
                  | Some Connect => true
                  | None => storeReady mw
                  end) as Hready.
  { induction events as [|ev evs IH] using rev_ind; intros mw; [done|].
    unfold after_events. rewrite foldl_snoc, last_snoc. by destruct ev. }
  unfold handle. destruct (session_of req) as [s|]; simpl.
  - split; [intros _; left; by eexists|intros _; apply list_elem_of_here].
  - rewrite Hready. destruct (last events) as [[|]|]; simpl.
    + split; [by right|]. intros _. apply list_elem_of_further, list_elem_of_here.
    + split; [by intros ?%elem_of_nil|]. by intros [[? ?]|?].
    + split; [by intros ?%elem_of_nil|]. by intros [[? ?]|?].
Qed.

End Secure.

End SessionExtra.

(** ** Further properties of the bridge *)

Module BridgeExtra.
Import JS JSON Bridge BridgeOps BridgeFacts.

Section NormalizerOps.

Lemma getExpressParams_defaults_witness :
  ∃ p, getExpressParams (VObj [("path", VNum 7); ("headers", VStr "x")]) = Some p
       ∧ path p = "/" ∧ headers p = VObj [].
Proof.
  eexists. split; [reflexivity|].
  destruct (BridgeFacts.getExpressParams_defaults
              [("path", VNum 7); ("headers", VStr "x")] _ eq_refl)
    as (Hp & _ & Hh & _).
  split; [by apply Hp | by apply Hh].
Defined.

(** X16: a field of the expected kind is handed on as it is: a non-empty
    string path, the method in upper case, header and query objects, a
    non-empty string body, and an object body as the object itself (it is
    not serialized here); the base64 flag is the truthiness of the field. *)
Theorem getExpressParams_passes_fields (props : list (string * value)) :
  ∃ p, getExpressParams (VObj props) = Some p
    ∧ (∀ s, assoc "path" props = VStr s → s ≠ "" → path p = s)
    ∧ (∀ s, assoc "httpMethod" props = VStr s → s ≠ "" →
         httpMethod p = toUpperCase s)
    ∧ (∀ o, assoc "headers" props = VObj o → headers p = VObj o)
    ∧ (∀ o, assoc "queryStringParameters" props = VObj o →
         queryStringParameters p = VObj o)
    ∧ (∀ s, assoc "body" props = VStr s → s ≠ "" → body p = VStr s)
    ∧ (∀ o, assoc "body" props = VObj o → body p = VObj o)
    ∧ isBase64Encoded p = truthy (assoc "isBase64Encoded" props).
Proof.
  eexists. split; [reflexivity|]. simpl. unfold prop_of. simpl.
  repeat split.
  - intros s -> Hs. by destruct s.
  - intros s -> Hs. by destruct s.
  - by intros o ->.
  - by intros o ->.
  - intros s -> Hs. by destruct s.
  - by intros o ->.
Qed.

(** X17: reading the event throws only when the event is [null] or
    [undefined]; any other event that is not a record (a number, a string,
    a boolean, an array) is normalized to the defaults. *)
Theorem getExpressParams_non_record (event : value) :
  (getExpressParams event = None ↔ event = VNull ∨ event = VUndefined)
  ∧ ((∀ props, event ≠ VObj props) → event ≠ VNull → event ≠ VUndefined →
       getExpressParams event = Some default_params).
Proof.
  split.
  - destruct event; simpl; split; try done; try (intros [?|?]; done); auto.
  - intros Hrec Hn Hu. destruct event; try done. by destruct (Hrec props).
Qed.

Lemma get_map_string (f : ascii → ascii) (s : string) (n : nat) :
  String.get n (map_string f s) = f <$> String.get n s.
Proof.
  revert n. induction s as [|c r IH]; intros n; simpl; [done|].
  destruct n; [done|]. apply IH.
Qed.

Lemma ascii_upper_not_lower c : is_lower (ascii_upper c) = false.
Proof. by destruct c as [[] [] [] [] [] [] [] []]. Qed.

(** X18: the method of the normalized parameters holds no lower-case
    letter, whatever the event. *)
Theorem httpMethod_has_no_lower_case (event : value) (p : ExpressParams) :
  getExpressParams event = Some p →
  ∀ n c, String.get n (httpMethod p) = Some c → is_lower c = false.
Proof.
  intros Hp n c. unfold getExpressParams in Hp.
  destruct (get_prop event "path"); [|done]. injection Hp as <-. simpl.
  unfold toUpperCase. rewrite get_map_string.
  destruct (String.get n _); simpl; [|done].
  intros [= <-]. apply ascii_upper_not_lower.
Qed.

Lemma httpMethod_has_no_lower_case_witness :
  ∃ p, getExpressParams (VObj [("httpMethod", VStr "post")]) = Some p
       ∧ httpMethod p = "POST"
       ∧ is_lower "P" = false.
Proof.
  eexists. split; [reflexivity|]. split; [reflexivity|].
  apply (httpMethod_has_no_lower_case
           (VObj [("httpMethod", VStr "post")]) _ eq_refl 0%nat).
  reflexivity.
Defined.

End NormalizerOps.

Section MergeOps.

Implicit Types (k : string) (v : value) (props : list (string * value)).

(** The keys after [set_prop]: as before when the key is there, with the
    key added last when it is not. *)
Lemma set_prop_keys k v props :
  (set_prop k v props).*1
  = if bool_decide (k ∈ props.*1) then props.*1 else (props.*1 ++ [k])%list.
Proof.
  induction props as [|[k' v'] rest IH]; [done|]. cbn [set_prop].
  destruct (String.eqb_spec k k') as [->|Hne]; rewrite !fmap_cons; cbn [fst].
  - by rewrite bool_decide_eq_true_2 by apply list_elem_of_here.
  - rewrite IH. destruct (decide (k ∈ rest.*1)) as [Hin|Hnin].
    + rewrite !bool_decide_eq_true_2;
        [done | by apply list_elem_of_further | done].
    + rewrite !bool_decide_eq_false_2; [done | | done].
      intros [?|?]%elem_of_cons; done.
Qed.

(** X19: merging the identity into an object whose keys are distinct gives
    an object whose keys are distinct again and hold [wxContext] exactly
    once: the key list is unchanged when the object had the key (its value
    is replaced in place), and grows by [wxContext] at the end otherwise. *)
Theorem merge_keeps_keys_distinct (wx : option WXContext) props :
  NoDup props.*1 →
  let merged := set_prop "wxContext" (wx_object wx) props in
  NoDup merged.*1
  ∧ "wxContext" ∈ merged.*1
  ∧ merged.*1 = (if bool_decide ("wxContext" ∈ props.*1) then props.*1
                 else (props.*1 ++ ["wxContext"])%list).
Proof.
  intros Hnd merged. subst merged. rewrite set_prop_keys.
  destruct (decide ("wxContext" ∈ props.*1)) as [Hin|Hnin].
  - by rewrite bool_decide_eq_true_2.
  - rewrite bool_decide_eq_false_2 by done. split; [|split; [|done]].
    + apply NoDup_app. split; [done|]. split; [|apply NoDup_singleton].
      intros x Hx ->%list_elem_of_singleton. done.
    + apply elem_of_app. right. apply list_elem_of_here.
Qed.

Lemma merge_keeps_keys_distinct_witness :
  (set_prop "wxContext" (wx_object None)
            [("a", VNum 1); ("wxContext", VStr "mine"); ("b", VNull)]).*1
  = ["a"; "wxContext"; "b"].
Proof.
  destruct (merge_keeps_keys_distinct None
              [("a", VNum 1); ("wxContext", VStr "mine"); ("b", VNull)])
    as (_ & _ & ->); [|reflexivity].
  repeat (apply NoDup_cons; split; [by vm_compute; intros H; repeat
            (apply elem_of_cons in H as [H|H]; [done|]); by apply elem_of_nil in H|]).
  apply NoDup_nil_2.
Defined.

End MergeOps.

Section CaptureOps.

Context `{Parser}.

Implicit Types (st : Shim) (wx : option WXContext) (ops : list ShimOp).

Lemma append_assoc_s (a b c : string) : (a ++ b) ++ c = a ++ (b ++ c).
Proof.
  induction a as [|x r IH]; [done|].
  change (String x ((r ++ b) ++ c) = String x (r ++ (b ++ c))). by rewrite IH.
Qed.

Lemma end_resBody wx chunk e cb st :
  resBody (end_ wx chunk e cb st) = resBody st ++ final_text chunk
  ∧ res (end_ wx chunk e cb st) = res st.
Proof.
  pose proof (BridgeFacts.end_write_resBody chunk e cb st) as Hb.
  pose proof (BridgeFacts.end_write_settled chunk e cb st) as [_ Hr].
  unfold end_. destruct (end_write chunk e cb st) as [st1 [[d en] c]].
  by simpl in *.
Qed.

Lemma run_outcome wx ops :
  ∀ st, settled st = None →
        settled (run wx ops st)
        = outcome_of wx ops (resBody st) (statusCode (res st)).
Proof.
  induction ops as [|op ops IH]; intros st Hns; [done|].
  change (run wx (op :: ops) st) with (run wx ops (step wx op st)).
  destruct op as [c e cb|c e cb|code|n v]; simpl.
  - destruct (BridgeFacts.write_spec c e cb st) as (Hb & Hs & Hr).
    rewrite IH by congruence. by rewrite Hb, Hr.
  - rewrite (BridgeFacts.run_keeps_settled wx ops _
               (mkOutcome (statusCode (res st))
                          (response_body wx (resBody st ++ final_text c)))).
    + done.
    + by rewrite BridgeFacts.end_settled, Hns.
  - by rewrite IH.
  - by rewrite IH.
Qed.

(** X20: what the promise holds after the application ran is told by its
    operations alone: nothing when it never calls [end] (the promise stays
    pending), and otherwise the status code as last set before the first
    [end] with the body computed from all that was written before it and
    its final chunk; what comes after the first [end] does not count. *)
Theorem outcome_told_by_operations wx ops (r : Response) :
  settled (run wx ops (init_shim r)) = outcome_of wx ops "" (statusCode r)
  ∧ (outcome_of wx ops "" (statusCode r) = None
     ↔ Forall (λ op, is_end op = false) ops).
Proof.
  split; [by apply run_outcome|].
  generalize (statusCode r) as code. generalize "" as text.
  induction ops as [|op ops IH]; intros text code; simpl.
  - split; [constructor|done].
  - destruct op as [c e cb|c e cb|n|n v]; simpl.
    + rewrite IH. split; [by constructor|by inversion 1].
    + split; [done|]. by inversion 1.
    + rewrite IH. split; [by constructor|by inversion 1].
    + rewrite IH. split; [by constructor|by inversion 1].
Qed.

(** X21: the settled outcome and the accumulator do not depend on the
    encoding or on the callbacks passed to [end], and [end(cb)] with a
    callback in first place settles as [end()] does. *)
Theorem outcome_ignores_encoding_and_callbacks wx (chunk e cb e' cb' : Arg) st :
  settled (end_ wx chunk e cb st) = settled (end_ wx chunk e' cb' st)
  ∧ resBody (end_ wx chunk e cb st) = resBody (end_ wx chunk e' cb' st)
  ∧ ∀ f, settled (end_ wx (AFunction f) e cb st)
         = settled (end_ wx AUndefined e cb st).
Proof.
  split; [by rewrite !BridgeFacts.end_settled|].
  split; [by rewrite !(proj1 (end_resBody _ _ _ _ _))|].
  intros f. by rewrite !BridgeFacts.end_settled.
Qed.

Lemma count_app {A} (f : A → bool) (l1 l2 : list A) :
  length (List.filter f (l1 ++ l2))
  = (length (List.filter f l1) + length (List.filter f l2))%nat.
Proof. by rewrite List.filter_app, length_app. Qed.

Lemma step_forwards wx op st :
  length (List.filter is_fwd_end (forwarded (step wx op st)))
  = (length (List.filter is_fwd_end (forwarded st))
     + (if is_end op then 1 else 0))%nat
  ∧ length (List.filter (λ c, negb (is_fwd_end c)) (forwarded (step wx op st)))
    = (length (List.filter (λ c, negb (is_fwd_end c)) (forwarded st))
       + (if is_write op || ends_with_chunk op then 1 else 0))%nat.
Proof.
  destruct op as [c e cb|c e cb|code|n v]; simpl; try lia.
  - unfold write. destruct e as [|f|s|b]; simpl;
      try (destruct (negb (String.eqb s "")); simpl);
      rewrite !count_app; simpl; lia.
  - unfold end_, end_write, end_signature, resolve, write.
    destruct c as [|f|s|b]; simpl;
      repeat match goal with
        | |- context [is_function ?x] => destruct (is_function x); simpl
        | |- context [truthy_arg ?x] => destruct (truthy_arg x); simpl
        | |- context [negb (String.eqb ?x "")] =>
            destruct (negb (String.eqb x "")); simpl
        end;
      rewrite ?count_app; simpl; rewrite ?count_app; simpl; lia.
Qed.

(** X22: every [end] of the application reaches the saved [_end], also a
    second one (nothing guards it), and the saved [_write] is reached once
    by every [write] and once more by every [end] that carries a chunk: so
    a final chunk goes to the underlying response twice, through [_write]
    and through [_end]. *)
Theorem forwarded_calls_counted wx ops st :
  length (List.filter is_fwd_end (forwarded (run wx ops st)))
  = (length (List.filter is_fwd_end (forwarded st))
     + length (List.filter is_end ops))%nat
  ∧ length (List.filter (λ c, negb (is_fwd_end c)) (forwarded (run wx ops st)))
    = (length (List.filter (λ c, negb (is_fwd_end c)) (forwarded st))
       + length (List.filter (λ op, is_write op || ends_with_chunk op) ops))%nat.
Proof.
  revert st. induction ops as [|op ops IH]; intros st; [simpl; lia|].
  change (run wx (op :: ops) st) with (run wx ops (step wx op st)).
  destruct (IH (step wx op st)) as [-> ->].
  destruct (step_forwards wx op st) as [-> ->]. simpl.
  destruct (is_end op), (is_write op || ends_with_chunk op); simpl; lia.
Qed.

End CaptureOps.

Section SendOps.

Context `{Framework}.

Implicit Types (app : App) (req : SendRequest) (r : Response) (chunk : Chunk).

Lemma get_status name code r : get name (status code r) = get name r.
Proof. done. Qed.

(** What [send_body] leaves of a header that is none of Content-Type,
    Content-Length, Transfer-Encoding or ETag is not needed below; for ETag
    and Content-Length the steps are followed one by one. *)
Lemma send_utf8_other name chunk r enc r2 :
  send_utf8 chunk r = Some (enc, r2) →
  toLowerCase "Content-Type" ≠ toLowerCase name →
  get name r2 = get name r ∧ statusCode r2 = statusCode r.
Proof.
  unfold send_utf8. intros Hu Hne. destruct chunk as [|s|b]; simplify_eq; [done| |done].
  destruct (get "Content-Type" r) as [t|]; [|by simplify_eq].
  destruct (setCharset t "utf-8"); simplify_eq. by rewrite get_set_ne.
Qed.

Lemma send_length_spec (g : bool) chunk enc r :
  let '(chunk3, enc3, len, r3) := send_length g chunk enc r in
  chunk_bytes chunk3 = chunk_bytes chunk
  ∧ statusCode r3 = statusCode r
  ∧ (∀ name, toLowerCase "Content-Length" ≠ toLowerCase name →
             get name r3 = get name r)
  ∧ (chunk ≠ CUndefined →
       get "Content-Length" r3 = Some (pretty (byte_length (chunk_bytes chunk)))
       ∧ chunk3 ≠ CUndefined)
  ∧ (chunk = CUndefined → r3 = r ∧ chunk3 = CUndefined).
Proof.
  unfold send_length. destruct chunk as [|s|b]; simpl.
  - repeat split; done.
  - destruct (negb g && (utf16_length s <? 1000)); simpl;
      (split; [done|]; split; [done|]; split;
       [intros name Hne; by rewrite get_set_ne|]; split; [|done];
       intros _; split; [apply BridgeFacts.get_set_eq|done]).
  - split; [done|]. split; [done|]. split;
      [intros name Hne; by rewrite get_set_ne|]. split; [|done].
    intros _. split; [apply BridgeFacts.get_set_eq|done].
Qed.

Lemma send_etag_off app chunk enc (len : option Z) r :
  send_etag app false chunk enc len r = r.
Proof. unfold send_etag. destruct (etag_fn app); [|done]. by destruct len. Qed.

Lemma send_dispatch_bytes (b : Body) r (bytes : string) :
  sent_bytes b = Some bytes →
  ∃ chunk r1, send_dispatch b r = Continue chunk r1
              ∧ chunk_bytes chunk = bytes ∧ chunk ≠ CUndefined
              ∧ statusCode r1 = statusCode r.
Proof.
  intros Hb. destruct b as [v|bs]; [destruct v|]; simpl in Hb; simplify_eq; simpl.
  - exists (CString ""), r. by repeat split.
  - eexists _, _. split; [reflexivity|]. split; [done|]. split; [done|].
    by destruct (unset _).
  - eexists _, _. split; [reflexivity|]. split; [done|]. split; [done|].
    by destruct (unset _).
Qed.

(** X23: when [send] sends a string, a Buffer or [null] and the status is
    none of 204, 304 and 205, the Content-Length header it leaves is the
    byte length of the body, and the body handed to [end], if one is, has
    exactly these bytes (also after the conversion to a Buffer). *)
Theorem send_content_length app req (b : Body) r r' (call : EndCall)
  (bytes : string) :
  send app req b r = Ends r' call →
  sent_bytes b = Some bytes →
  statusCode r' ≠ 204 → statusCode r' ≠ 304 → statusCode r' ≠ 205 →
  get "Content-Length" r' = Some (pretty (byte_length bytes))
  ∧ (written call = None
     ∨ ∃ chunk, written call = Some chunk ∧ chunk_bytes chunk = bytes).
Proof.
  intros Hsend Hb H204 H304 H205. unfold send in Hsend.
  destruct (send_dispatch_bytes b r bytes Hb) as (chunk & r1 & Hd & <- & Hc & _).
  rewrite Hd in Hsend. unfold send_body in Hsend.
  destruct (send_utf8 chunk r1) as [[enc r2]|] eqn:Hu; [|done].
  pose proof (send_length_spec
                (unset (get "ETag" r2) && bool_decide (is_Some (etag_fn app)))
                chunk enc r2) as Hl.
  destruct (send_length _ chunk enc r2) as [[[chunk3 enc3] len] r3].
  destruct Hl as (Hbytes & _ & _ & Hlen & _). destruct (Hlen Hc) as [Hcl _].
  set (r4 := send_etag app _ chunk3 enc3 len r3) in *.
  assert (get "Content-Length" r4 = get "Content-Length" r3) as H4.
  { by apply send_etag_other. }
  set (r5 := if fresh req r4 then status 304 r4 else r4) in *.
  assert (get "Content-Length" r5 = get "Content-Length" r4) as H5.
  { subst r5. by destruct (fresh req r4). }
  destruct (send_strip chunk3 r5) as [chunk6 r6] eqn:Hs.
  destruct (send_205 chunk6 r6) as [chunk7 r7] eqn:H2.
  injection Hsend as <- <-.
  pose proof (BridgeFacts.send_strip_spec chunk3 r5) as [Hst6 _].
  pose proof (BridgeFacts.send_205_spec chunk6 r6) as [Hst7 _].
  rewrite Hs in Hst6. rewrite H2 in Hst7. simpl in Hst6, Hst7.
  rewrite send_strip_id in Hs by congruence. injection Hs as <- <-.
  rewrite send_205_id in H2 by congruence. injection H2 as <- <-.
  split; [congruence|]. unfold send_respond.
  destruct (String.eqb (method req) "HEAD"); simpl; [by left|].
  right. by exists chunk3.
Qed.

(** X24: [send] never replaces an ETag header that is set, and sets none
    when the application has no [etag fn]: in both cases the header reads
    after [send] as it read before. *)
Theorem send_keeps_etag app req (b : Body) r r' (call : EndCall) :
  send app req b r = Ends r' call →
  unset (get "ETag" r) = false ∨ etag_fn app = None →
  get "ETag" r' = get "ETag" r.
Proof.
  intros Hsend Hcase. unfold send in Hsend.
  destruct (send_dispatch b r) as [v|chunk r1] eqn:Hd; [done|].
  assert (get "ETag" r1 = get "ETag" r) as H1.
  { unfold send_dispatch in Hd.
    destruct b as [v|bs]; [destruct v|]; simplify_eq; try done;
      (destruct (unset (get "Content-Type" r)); [|done]);
      unfold type_; by rewrite get_set_ne. }
  unfold send_body in Hsend.
  destruct (send_utf8 chunk r1) as [[enc r2]|] eqn:Hu; [|done].
  destruct (send_utf8_other "ETag" chunk r1 enc r2 Hu) as [H2 _]; [done|].
  pose proof (send_length_spec
                (unset (get "ETag" r2) && bool_decide (is_Some (etag_fn app)))
                chunk enc r2) as Hl.
  destruct (send_length _ chunk enc r2) as [[[chunk3 enc3] len] r3].
  destruct Hl as (_ & _ & H3 & _).
  assert (unset (get "ETag" r2) && bool_decide (is_Some (etag_fn app)) = false)
    as Hg.
  { destruct Hcase as [Hset| ->].
    - by rewrite H2, H1, Hset.
    - rewrite bool_decide_eq_false_2; [apply andb_false_r|]. by intros [? ?]. }
  rewrite Hg, send_etag_off in Hsend.
  set (r5 := if fresh req r3 then status 304 r3 else r3) in *.
  assert (get "ETag" r5 = get "ETag" r3) as H5.
  { subst r5. by destruct (fresh req r3). }
  assert (∀ c rr, get "ETag" (send_strip c rr).2 = get "ETag" rr) as Hstrip.
  { intros c rr. unfold send_strip.
    destruct ((statusCode rr =? 204) || (statusCode rr =? 304)); simpl; [|done].
    by rewrite !BridgeFacts.get_remove_ne. }
  assert (∀ c rr, get "ETag" (send_205 c rr).2 = get "ETag" rr) as H205.
  { intros c rr. unfold send_205. destruct (statusCode rr =? 205); simpl; [|done].
    by rewrite BridgeFacts.get_remove_ne, get_set_ne. }
  specialize (Hstrip chunk3 r5).
  destruct (send_strip chunk3 r5) as [chunk6 r6].
  specialize (H205 chunk6 r6).
  destruct (send_205 chunk6 r6) as [chunk7 r7].
  injection Hsend as <- <-. simpl in *.
  rewrite H205, Hstrip, H5, H3 by done. congruence.
Qed.

(** X25: the method of the request only decides whether [end] gets the
    body: two requests that agree on freshness get the same result from
    [send] (the same call of [json], the same throw, the same status and
    headers), and the status [send] leaves is the one before or 304. *)
Theorem send_method_only_drops_body app req1 req2 (b : Body) r :
  fresh req1 = fresh req2 →
  match send app req1 b r, send app req2 b r with
  | Ends r1 call1, Ends r2 call2 =>
      r1 = r2
      ∧ (statusCode r1 = statusCode r ∨ statusCode r1 = 304)
      ∧ (method req1 = method req2 → call1 = call2)
  | Throws, Throws => True
  | ReturnsJson v1, ReturnsJson v2 => v1 = v2
  | _, _ => False
  end.
Proof.
  intros Hf. unfold send.
  destruct (send_dispatch b r) as [v|chunk r1] eqn:Hd; [done|].
  assert (statusCode r1 = statusCode r) as Hs1.
  { unfold send_dispatch in Hd.
    destruct b as [v|bs]; [destruct v|]; simplify_eq; try done;
      by destruct (unset (get "Content-Type" r)). }
  unfold send_body.
  destruct (send_utf8 chunk r1) as [[enc r2]|] eqn:Hu; [|done].
  assert (statusCode r2 = statusCode r1) as Hs2.
  { unfold send_utf8 in Hu. destruct chunk; simplify_eq; try done.
    destruct (get "Content-Type" r1); [|by simplify_eq].
    destruct (setCharset _ _); by simplify_eq. }
  pose proof (send_length_spec
                (unset (get "ETag" r2) && bool_decide (is_Some (etag_fn app)))
                chunk enc r2) as Hl.
  destruct (send_length _ chunk enc r2) as [[[chunk3 enc3] len] r3].
  destruct Hl as (_ & Hs3 & _).
  set (r4 := send_etag app _ chunk3 enc3 len r3).
  assert (statusCode r4 = statusCode r3) as Hs4.
  { by apply (send_etag_other app _ chunk3 enc3 len r3 "Content-Length"). }
  rewrite Hf. set (r5 := if fresh req2 r4 then status 304 r4 else r4).
  assert (statusCode r5 = statusCode r ∨ statusCode r5 = 304) as Hs5.
  { subst r5. destruct (fresh req2 r4); [by right|left; congruence]. }
  pose proof (BridgeFacts.send_strip_spec chunk3 r5) as [Hst6 _].
  destruct (send_strip chunk3 r5) as [chunk6 r6].
  pose proof (BridgeFacts.send_205_spec chunk6 r6) as [Hst7 _].
  destruct (send_205 chunk6 r6) as [chunk7 r7]. simpl in *.
  split; [done|]. split; [by rewrite Hst7, Hst6|].
  intros Hm. unfold send_respond. by rewrite Hm.
Qed.

End SendOps.

Section AssemblyOps.

Implicit Types (k : string) (t : gmap string value).

Lemma last_setter_snoc k (l : list (string * value)) (kv : string * value) :
  last_setter k (l ++ [kv])
  = if String.eqb kv.1 k then Some kv.2 else last_setter k l.
Proof. unfold last_setter. by rewrite foldl_snoc. Qed.

Lemma apply_calls_snoc (calls : list AppCall) (call : AppCall) t :
  apply_calls (calls ++ [call]) t = apply_call call (apply_calls calls t).
Proof. unfold apply_calls. by rewrite foldl_snoc. Qed.

Lemma apply_calls_app (c1 c2 : list AppCall) t :
  apply_calls (c1 ++ c2) t = apply_calls c2 (apply_calls c1 t).
Proof. unfold apply_calls. by rewrite foldl_app. Qed.

Lemma apply_flags (mk : string → AppCall) (b : bool) (l : list string) t k :
  (∀ x t', apply_call (mk x) t' = <[x := VBool b]> t') →
  apply_calls (map mk l) t !! k
  = if bool_decide (k ∈ l) then Some (VBool b) else t !! k.
Proof.
  intros Hmk. induction l as [|x l IH] using rev_ind.
  - by rewrite bool_decide_eq_false_2 by apply not_elem_of_nil.
  - rewrite map_app. simpl. rewrite apply_calls_snoc, Hmk.
    destruct (decide (k = x)) as [->|Hne].
    + rewrite lookup_insert_eq.
      rewrite bool_decide_eq_true_2; [done|].
      apply elem_of_app. right. apply list_elem_of_here.
    + rewrite lookup_insert_ne by done. rewrite IH.
      destruct (decide (k ∈ l)) as [Hin|Hnin].
      * rewrite !bool_decide_eq_true_2; [done| |done].
        apply elem_of_app. by left.
      * rewrite !bool_decide_eq_false_2; [done| |done].
        intros [?|?%list_elem_of_singleton]%elem_of_app; done.
Qed.

Lemma apply_setters (l : list (string * value)) t k :
  apply_calls (map (λ kv, SetSetting kv.1 kv.2) l) t !! k
  = match last_setter k l with
    | Some v => Some v
    | None => t !! k
    end.
Proof.
  induction l as [|[x v] l IH] using rev_ind; [done|].
  rewrite map_app. simpl. rewrite apply_calls_snoc, last_setter_snoc. simpl.
  destruct (String.eqb_spec x k) as [->|Hne].
  - apply lookup_insert_eq.
  - by rewrite lookup_insert_ne.
Qed.

Lemma apply_inert {A} (mk : A → AppCall) (l : list A) t :
  (∀ x t', apply_call (mk x) t' = t') → apply_calls (map mk l) t = t.
Proof.
  intros Hmk. induction l as [|x l IH] using rev_ind; [done|].
  rewrite map_app. simpl. by rewrite apply_calls_snoc, Hmk.
Qed.

Lemma each_default {A} (l : option (list A)) (mk : A → AppCall) :
  each l mk = map mk (default [] l).
Proof. by destruct l. Qed.

(** X26: the settings table after [initExpressApp]: a setting named by a
    setter has the value of the last setter that names it; otherwise it is
    [true] when it is among the enabled ones, also when it is among the
    disabled ones too; otherwise [false] when it is among the disabled
    ones; otherwise it is as it was. *)
Theorem initExpressApp_settings_precedence (c : ExpressAppConfigs) t k :
  apply_calls (initExpressApp (Some c)) t !! k
  = match last_setter k (default [] (setters c)) with
    | Some v => Some v
    | None =>
        if bool_decide (k ∈ default [] (enableSettings c)) then Some (VBool true)
        else if bool_decide (k ∈ default [] (disableSettings c))
             then Some (VBool false)
             else t !! k
    end.
Proof.
  unfold initExpressApp. simpl. rewrite !each_default, !apply_calls_app.
  rewrite (apply_inert use_call); [|by intros [[p|] hs] t'; simpl;
    unfold use_call; simpl; try destruct (String.eqb p "")].
  rewrite (apply_inert (λ ec, On ec.1 ec.2)) by done.
  rewrite (apply_inert (λ nh, Param nh.1 nh.2)) by done.
  rewrite apply_setters.
  destruct (last_setter k (default [] (setters c))); [done|].
  rewrite (apply_flags Enable true) by done.
  destruct (bool_decide (k ∈ default [] (enableSettings c))); [done|].
  rewrite (apply_flags Disable false) by done.
  destruct (bool_decide (k ∈ default [] (disableSettings c))); [done|].
  by destruct (configureFn c), (cfg_app c).
Qed.

(** X27: an error record built by [httpError] reads, under every name, the
    value of the last detail of that name when there is one, and the status
    code or the message otherwise: details named [statusCode] or [message]
    replace the arguments. *)
Theorem httpError_details_override (code : Z) (msg : string)
  (details : list (string * value)) k :
  assoc k (own_props (httpError code msg details))
  = match last_setter k details with
    | Some v => v
    | None => assoc k [("statusCode", VNum code); ("message", VStr msg)]
    end.
Proof.
  unfold httpError, spread_onto. simpl.
  induction details as [|[x v] l IH] using rev_ind; [done|].
  rewrite foldl_snoc, last_setter_snoc. simpl.
  destruct (String.eqb_spec x k) as [->|Hne].
  - apply BridgeFacts.set_prop_assoc.
  - by rewrite BridgeFacts.set_prop_assoc_ne.
Qed.

(** X28: the stream of the synthetic request for the parameters of an
    event record (not flagged base64): it always closes with the end
    marker, after at most one chunk, which is the body string itself when
    it is not empty, the serialization of an object or array body, and
    the text [null] for a [null] body; no chunk for any other body. *)
Theorem initExpressRequest_stream (props : list (string * value)) (url : string) :
  ∃ p, getExpressParams (VObj props) = Some p
    ∧ pushed (initExpressRequest url (httpMethod p) (headers p) (body p))
      = match assoc "body" props with
        | VStr s => if String.eqb s "" then [None] else [Some s; None]
        | VObj o => [Some (serialize (VObj o)); None]
        | VArr a => [Some (serialize (VArr a)); None]
        | VNull => [Some "null"; None]
        | _ => [None]
        end.
Proof.
  eexists. split; [reflexivity|]. simpl. unfold prop_of. simpl.
  destruct (assoc "body" props) as [| |b|n|s|a|o]; simpl; try done.
  - by destruct b.
  - by destruct (n =? 0).
  - by destruct s.
Qed.

End AssemblyOps.

Lemma send_content_length_witness :
  ∃ r' call,
    @send Scenario.reference_framework Scenario.no_etag_app Scenario.get_request
          (BValue (VStr "hello")) (mkResponse 200 ∅) = Ends r' call
    ∧ get "Content-Length" r' = Some "5".
Proof.
  destruct (@send Scenario.reference_framework Scenario.no_etag_app
              Scenario.get_request (BValue (VStr "hello")) (mkResponse 200 ∅))
    as [| |r' call] eqn:Hs; [by vm_compute in Hs..|].
  exists r', call. split; [reflexivity|].
  assert (statusCode r' = 200) as Hcode.
  { pose proof Hs as Hs'. vm_compute in Hs'. by injection Hs' as <- _. }
  destruct (@send_content_length Scenario.reference_framework
              Scenario.no_etag_app Scenario.get_request (BValue (VStr "hello"))
              (mkResponse 200 ∅) r' call "hello" Hs eq_refl) as [Hcl _];
    [lia | lia | lia |]. exact Hcl.
Defined.

Lemma send_method_only_drops_body_witness :
  ∃ r1 call1 r2 call2,
    @send Scenario.reference_framework Scenario.no_etag_app
          (mkSendRequest "HEAD" (λ _, false)) (BValue (VStr "hello"))
          (mkResponse 200 ∅) = Ends r1 call1
    ∧ @send Scenario.reference_framework Scenario.no_etag_app
            Scenario.get_request (BValue (VStr "hello")) (mkResponse 200 ∅)
      = Ends r2 call2
    ∧ r1 = r2.
Proof.
  pose proof (@send_method_only_drops_body Scenario.reference_framework
                Scenario.no_etag_app (mkSendRequest "HEAD" (λ _, false))
                Scenario.get_request (BValue (VStr "hello")) (mkResponse 200 ∅)
                eq_refl) as Hsame.
  destruct (@send Scenario.reference_framework Scenario.no_etag_app
              (mkSendRequest "HEAD" (λ _, false)) (BValue (VStr "hello"))
              (mkResponse 200 ∅)) as [| |r1 call1] eqn:Hs1;
    [by vm_compute in Hs1..|].
  destruct (@send Scenario.reference_framework Scenario.no_etag_app
              Scenario.get_request (BValue (VStr "hello")) (mkResponse 200 ∅))
    as [| |r2 call2] eqn:Hs2; [by vm_compute in Hs2..|].
  destruct Hsame as [Heq _]. by exists r1, call1, r2, call2.
Defined.

Lemma send_keeps_etag_witness :
  ∃ r' call,
    @send Scenario.reference_framework (mkApp (Some (λ _ _, "W/new")))
          Scenario.get_request (BValue (VStr "hello"))
          (mkResponse 200 {["etag" := "W/old"]}) = Ends r' call
    ∧ get "ETag" r' = Some "W/old".
Proof.
  destruct (@send Scenario.reference_framework (mkApp (Some (λ _ _, "W/new")))
              Scenario.get_request (BValue (VStr "hello"))
              (mkResponse 200 {["etag" := "W/old"]}))
    as [| |r' call] eqn:Hs; [by vm_compute in Hs..|].
  exists r', call. split; [reflexivity|].
  rewrite (@send_keeps_etag Scenario.reference_framework
             (mkApp (Some (λ _ _, "W/new"))) Scenario.get_request
             (BValue (VStr "hello")) (mkResponse 200 {["etag" := "W/old"]})
             r' call Hs); [reflexivity|by left].
Defined.

End BridgeExtra.
